(** * Documentation image-reference analyzer

    A shallow embedding of [scripts/analyze-documentation.js]: the regular
    expression scans of [extractImageReferences], the classification
    functions [categorizeScreenshot] and [isCamundaSpecific], the reading of
    the documents by [analyzeFile] and the loop of [main], the aggregation of
    [generateReport] and the text of [generateMarkdownReport].

    JavaScript strings are modelled as lists of code units.  The code units
    are those of the range U+0000..U+00FF (the type [ascii]); the built-in
    case mappings [toLowerCase] and the canonicalisation of the [i] flag are
    written out for that range. *)

From Stdlib Require Import Ascii String List NArith ZArith Arith Bool Sorted Lia
  DecimalString.
Import ListNotations.

Set Implicit Arguments.

(** ** Strings *)

Definition str := list ascii.

Definition txt (x : string) : str := list_ascii_of_string x.

Definition str_eqb (a b : str) : bool :=
  if list_eq_dec ascii_dec a b then true else false.

(** [String.prototype.toLowerCase], one code unit at a time: within
    U+0000..U+00FF the letters A-Z and U+00C0..U+00DE (U+00D7 apart) move up
    by 32, every other code unit is its own lower case. *)
Definition lowerChar (c : ascii) : ascii :=
  let n := N_of_ascii c in
  if ((65 <=? n) && (n <=? 90) ||
      (192 <=? n) && (n <=? 222) && negb (n =? 215))%N
  then ascii_of_N (n + 32) else c.

Definition toLowerCase (x : str) : str := map lowerChar x.

(** The [Canonicalize] operation of a regular expression with the [i] flag
    (and without [u]): the upper case of the code unit.  U+00B5 and U+00FF
    have an upper case outside the modelled range, shared with no code unit
    inside it, and U+00DF has a two-unit upper case; all three stand for
    themselves. *)
Definition canonicalize (c : ascii) : ascii :=
  let n := N_of_ascii c in
  if ((97 <=? n) && (n <=? 122) ||
      (224 <=? n) && (n <=? 254) && negb (n =? 247))%N
  then ascii_of_N (n - 32) else c.

(** [String.prototype.startsWith]. *)
Fixpoint startsWith (x prefix : str) : bool :=
  match prefix, x with
  | [], _ => true
  | p :: prefix', c :: x' => Ascii.eqb c p && startsWith x' prefix'
  | _ :: _, [] => false
  end.

(** [String.prototype.substring] with [0 <= from <= to]. *)
Definition substring (x : str) (from to : nat) : str :=
  firstn (to - from) (skipn from x).

(** [String.prototype.split] with a separator of one code unit. *)
Fixpoint split (sep : ascii) (x : str) : list str :=
  match x with
  | [] => [[]]
  | c :: x' =>
      if Ascii.eqb c sep then [] :: split sep x'
      else match split sep x' with
           | piece :: pieces => (c :: piece) :: pieces
           | [] => [[c]]
           end
  end.

(** [Array.prototype.includes] on an array of strings. *)
Definition includes (xs : list str) (x : str) : bool := existsb (str_eqb x) xs.

(** ** Regular expressions

    The patterns of the script use literals, character classes, greedy [*]
    and [+] on a single class, and capture groups.  A pattern is the list of
    its tokens; [Open] and [Close] are the parentheses of a capture group. *)

Inductive atom :=
| Chr (c : ascii)
| OneOf (cs : list ascii)
| NoneOf (cs : list ascii).

Inductive node :=
| One (a : atom)
| Star (a : atom)
| Plus (a : atom)
| Open
| Close.

Record RegExp := {
  nodes : list node;
  ignoreCase : bool;
  global : bool
}.

Definition same_char (ic : bool) (x y : ascii) : bool :=
  if ic then Ascii.eqb (canonicalize x) (canonicalize y) else Ascii.eqb x y.

Definition accepts (ic : bool) (a : atom) (c : ascii) : bool :=
  match a with
  | Chr x => same_char ic x c
  | OneOf cs => existsb (fun x => same_char ic x c) cs
  | NoneOf cs => negb (existsb (fun x => same_char ic x c) cs)
  end.

(** A greedy repetition: take one more code unit while the class accepts it,
    and give back one at a time when the rest of the pattern fails. *)
Fixpoint greedy (R : Type) (p : ascii -> bool) (k : str -> nat -> option R)
    (x : str) (pos : nat) : option R :=
  match x with
  | c :: x' =>
      if p c then
        match greedy p k x' (S pos) with
        | Some r => Some r
        | None => k x pos
        end
      else k x pos
  | [] => k x pos
  end.

(** The backtracking matcher at a fixed start: [x] is the text from [pos]
    on, [caps] the group boundaries recorded so far.  The result is the end
    offset of the match and the boundaries of the groups. *)
Fixpoint run (ic : bool) (prog : list node) (x : str) (pos : nat)
    (caps : list nat) {struct prog} : option (nat * list nat) :=
  match prog with
  | [] => Some (pos, caps)
  | One a :: k =>
      match x with
      | c :: x' => if accepts ic a c then run ic k x' (S pos) caps else None
      | [] => None
      end
  | Star a :: k =>
      greedy (accepts ic a) (fun x' pos' => run ic k x' pos' caps) x pos
  | Plus a :: k =>
      match x with
      | c :: x' =>
          if accepts ic a c
          then greedy (accepts ic a) (fun x' pos' => run ic k x' pos' caps)
                 x' (S pos)
          else None
      | [] => None
      end
  | Open :: k => run ic k x pos (caps ++ [pos])
  | Close :: k => run ic k x pos (caps ++ [pos])
  end.

(** The leftmost match at or after [pos]. *)
Fixpoint search (ic : bool) (prog : list node) (x : str) (pos : nat)
    : option (nat * nat * list nat) :=
  match run ic prog x pos [] with
  | Some (e, caps) => Some (pos, e, caps)
  | None =>
      match x with
      | [] => None
      | _ :: x' => search ic prog x' (S pos)
      end
  end.

(** The match array of [exec]: [index] and the matched texts, element 0 the
    whole match, element [n] the text of group [n]. *)
Record MatchResult := {
  index : nat;
  groups : list str
}.

Fixpoint group_texts (content : str) (caps : list nat) : list str :=
  match caps with
  | from :: to :: caps' => substring content from to :: group_texts content caps'
  | _ => []
  end.

Definition group (m : MatchResult) (n : nat) : str := nth n (groups m) [].

(** [RegExp.prototype.exec]: the result and the new [lastIndex].  A pattern
    without the [g] flag starts at 0 and leaves [lastIndex] alone. *)
Definition exec (re : RegExp) (content : str) (lastIndex : nat)
    : option MatchResult * nat :=
  let start := if global re then lastIndex else 0 in
  if length content <? start then (None, if global re then 0 else lastIndex)
  else
    match search (ignoreCase re) (nodes re) (skipn start content) start with
    | Some (i, e, caps) =>
        (Some {| index := i;
                 groups := substring content i e :: group_texts content caps |},
         if global re then e else lastIndex)
    | None => (None, if global re then 0 else lastIndex)
    end.

(** [RegExp.prototype.test] on a pattern without the [g] flag. *)
Definition test (re : RegExp) (x : str) : bool :=
  match fst (exec re x 0) with Some _ => true | None => false end.

(** ** Classification *)

(** A case-insensitive literal pattern, [/text/i]. *)
Definition lit_i (text : string) : RegExp :=
  {| nodes := map (fun c => One (Chr c)) (txt text);
     ignoreCase := true;
     global := false |}.

Definition CAMUNDA_PATTERNS : list RegExp :=
  [ lit_i "camunda"; lit_i "cockpit"; lit_i "tasklist"; lit_i "admin-";
    lit_i "webapp"; lit_i "dashboard"; lit_i "process-definition";
    lit_i "process-instance"; lit_i "decision-"; lit_i "task-";
    lit_i "filter-"; lit_i "batch"; lit_i "migration"; lit_i "cleanup" ].

Inductive Category :=
| cockpit | tasklist | admin | welcome | modeler | other.

Definition Category_eqb (a b : Category) : bool :=
  match a, b with
  | cockpit, cockpit | tasklist, tasklist | admin, admin
  | welcome, welcome | modeler, modeler | other, other => true
  | _, _ => false
  end.

Record CategoryConfig := {
  patterns : list RegExp;
  description : string
}.

(** The entries of [CATEGORIES], in the order of the object literal. *)
Definition CATEGORIES : list (Category * CategoryConfig) :=
  [ (cockpit,
     {| patterns := [ lit_i "cockpit"; lit_i "dashboard"; lit_i "process-";
                      lit_i "decision-"; lit_i "batch"; lit_i "migration";
                      lit_i "heatmap" ];
        description := "Cockpit webapp screenshots" |});
    (tasklist,
     {| patterns := [ lit_i "tasklist"; lit_i "task-"; lit_i "filter";
                      lit_i "form" ];
        description := "Tasklist webapp screenshots" |});
    (admin,
     {| patterns := [ lit_i "admin-"; lit_i "user"; lit_i "group";
                      lit_i "tenant"; lit_i "authorization"; lit_i "system" ];
        description := "Admin webapp screenshots" |});
    (welcome,
     {| patterns := [ lit_i "welcome"; lit_i "profile" ];
        description := "Welcome page screenshots" |});
    (modeler,
     {| patterns := [ lit_i "modeler"; lit_i "diagram"; lit_i "bpmn-" ];
        description := "Modeler screenshots" |});
    (other,
     {| patterns := [];
        description := "Other screenshots" |}) ].

(** The inner loop of [categorizeScreenshot]: [true] when some pattern of the
    list matches, the point at which the function returns. *)
Fixpoint some_pattern_matches (pathLower : str) (pats : list RegExp) : bool :=
  match pats with
  | [] => false
  | pattern :: pats' =>
      if test pattern pathLower then true
      else some_pattern_matches pathLower pats'
  end.

(** The outer loop: the first entry with a matching pattern. *)
Fixpoint first_category (pathLower : str)
    (entries : list (Category * CategoryConfig)) : option Category :=
  match entries with
  | [] => None
  | (category, config) :: entries' =>
      if some_pattern_matches pathLower (patterns config) then Some category
      else first_category pathLower entries'
  end.

Definition categorizeScreenshot (imagePath : str) : Category :=
  let pathLower := toLowerCase imagePath in
  match first_category pathLower CATEGORIES with
  | Some category => category
  | None => other
  end.

Definition isCamundaSpecific (imagePath : str) : bool :=
  let pathLower := toLowerCase imagePath in
  existsb (fun pattern => test pattern pathLower) CAMUNDA_PATTERNS.


(** ** Reference extraction *)

(** The state of the backwards scan of Node's [path.extname] (POSIX
    flavour); [-1] is the unset index, as in the library. *)
Record ExtScan := {
  startDot : Z;
  startPart : Z;
  end_ : Z;
  matchedSlash : bool;
  preDotState : Z
}.

(** The loop [for (i = path.length - 1; i >= 0; --i)]: [rest] holds the code
    units at indices [i], [i-1], ..., 0. *)
Fixpoint extname_scan (rest : str) (i : Z) (st : ExtScan) : ExtScan :=
  match rest with
  | [] => st
  | code :: rest' =>
      if Ascii.eqb code "/" then
        if negb (matchedSlash st) then
          {| startDot := startDot st; startPart := i + 1; end_ := end_ st;
             matchedSlash := matchedSlash st; preDotState := preDotState st |}
        else extname_scan rest' (i - 1) st
      else
        let st1 :=
          if (end_ st =? -1)%Z then
            {| startDot := startDot st; startPart := startPart st;
               end_ := i + 1; matchedSlash := false;
               preDotState := preDotState st |}
          else st in
        let st2 :=
          if Ascii.eqb code "." then
            if (startDot st1 =? -1)%Z then
              {| startDot := i; startPart := startPart st1; end_ := end_ st1;
                 matchedSlash := matchedSlash st1;
                 preDotState := preDotState st1 |}
            else if negb (preDotState st1 =? 1)%Z then
              {| startDot := startDot st1; startPart := startPart st1;
                 end_ := end_ st1; matchedSlash := matchedSlash st1;
                 preDotState := 1 |}
            else st1
          else if negb (startDot st1 =? -1)%Z then
            {| startDot := startDot st1; startPart := startPart st1;
               end_ := end_ st1; matchedSlash := matchedSlash st1;
               preDotState := -1 |}
          else st1 in
        extname_scan rest' (i - 1) st2
  end.

Definition extname (path : str) : str :=
  let st := extname_scan (rev path) (Z.of_nat (length path) - 1)
              {| startDot := -1; startPart := 0; end_ := -1;
                 matchedSlash := true; preDotState := 0 |} in
  if ((startDot st =? -1) || (end_ st =? -1) || (preDotState st =? 0) ||
      (preDotState st =? 1) && (startDot st =? end_ st - 1) &&
      (startDot st =? startPart st + 1))%Z
  then []
  else substring path (Z.to_nat (startDot st)) (Z.to_nat (end_ st)).

Definition dquote : ascii := "034".
Definition squote : ascii := "039".
Definition newline : ascii := "010".

(** The pattern [mdRegex], token by token:
    [!  \[  (  [^\]]*  )  \]  \(  (  [^)]+  )  \)], with the flag [g]. *)
Definition mdRegex : RegExp :=
  {| nodes := [ One (Chr "!"); One (Chr "[");
                Open; Star (NoneOf ["]"%char]); Close;
                One (Chr "]"); One (Chr "(");
                Open; Plus (NoneOf [")"%char]); Close;
                One (Chr ")") ];
     ignoreCase := false;
     global := true |}.

(** The pattern [htmlRegex], token by token:
    [<img  [^>]+  src=  [Q]  (  [^Q]+  )  [Q]  [^>]*  >], with the flag [g],
    where [Q] stands for the two quote characters of the class. *)
Definition htmlRegex : RegExp :=
  {| nodes := [ One (Chr "<"); One (Chr "i"); One (Chr "m"); One (Chr "g");
                Plus (NoneOf [">"%char]);
                One (Chr "s"); One (Chr "r"); One (Chr "c"); One (Chr "=");
                One (OneOf [dquote; squote]);
                Open; Plus (NoneOf [dquote; squote]); Close;
                One (OneOf [dquote; squote]);
                Star (NoneOf [">"%char]);
                One (Chr ">") ];
     ignoreCase := false;
     global := true |}.

Module Ref.
(** The objects pushed by [extractImageReferences]. *)
Record t := {
  alt : str;
  path : str;
  fullMatch : str;
  sourceFile : str;
  lineNumber : nat
}.
End Ref.

Definition ImageReference := Ref.t.

Definition IMAGE_EXTENSIONS : list str :=
  [ txt ".png"; txt ".jpg"; txt ".jpeg"; txt ".gif"; txt ".svg"; txt ".webp" ].

(** [content.substring(0, match.index).split('\n').length] *)
Definition line_of (content : str) (m : MatchResult) : nat :=
  length (split newline (substring content 0 (index m))).

(** The body of the first [while] loop, from the match to the new value of
    [images]. *)
Definition md_body (content filePath : str) (m : MatchResult)
    (images : list ImageReference) : list ImageReference :=
  let imagePath := group m 2 in
  if startsWith imagePath (txt "http://") || startsWith imagePath (txt "https://")
  then images
  else
    let ext := toLowerCase (extname imagePath) in
    if includes IMAGE_EXTENSIONS ext then
      images ++ [ {| Ref.alt := group m 1;
                     Ref.path := imagePath;
                     Ref.fullMatch := group m 0;
                     Ref.sourceFile := filePath;
                     Ref.lineNumber := line_of content m |} ]
    else images.

(** The body of the second [while] loop. *)
Definition html_body (content filePath : str) (m : MatchResult)
    (images : list ImageReference) : list ImageReference :=
  let imagePath := group m 1 in
  if startsWith imagePath (txt "http") then images
  else
    images ++ [ {| Ref.alt := [];
                   Ref.path := imagePath;
                   Ref.fullMatch := group m 0;
                   Ref.sourceFile := filePath;
                   Ref.lineNumber := line_of content m |} ].

(** [while ((match = re.exec(content)) !== null) body]: the state is the
    [lastIndex] of the pattern and the accumulator of the body.  [None] is a
    loop that has not ended within [fuel] rounds. *)
Fixpoint exec_loop (A : Type) (fuel : nat) (re : RegExp) (content : str)
    (lastIndex : nat) (body : MatchResult -> A -> A) (acc : A) : option A :=
  match fuel with
  | 0 => None
  | S fuel' =>
      match exec re content lastIndex with
      | (None, _) => Some acc
      | (Some m, lastIndex') =>
          exec_loop fuel' re content lastIndex' body (body m acc)
      end
  end.

Definition extractImageReferences (content filePath : str)
    : option (list ImageReference) :=
  let fuel := S (length content) in
  match exec_loop fuel mdRegex content 0 (md_body content filePath) [] with
  | None => None
  | Some images =>
      exec_loop fuel htmlRegex content 0 (html_body content filePath) images
  end.

Module Image.
(** The objects of [analyzeFile]: the fields of the reference, spread, with
    [category] and [needsReplacement]. *)
Record t := {
  alt : str;
  path : str;
  fullMatch : str;
  sourceFile : str;
  lineNumber : nat;
  category : Category;
  needsReplacement : bool
}.
End Image.

Definition ClassifiedImage := Image.t.

Definition classify (i : ImageReference) : ClassifiedImage :=
  {| Image.alt := Ref.alt i;
     Image.path := Ref.path i;
     Image.fullMatch := Ref.fullMatch i;
     Image.sourceFile := Ref.sourceFile i;
     Image.lineNumber := Ref.lineNumber i;
     Image.category := categorizeScreenshot (Ref.path i);
     Image.needsReplacement := isCamundaSpecific (Ref.path i) |}.

(** What the promise of [fs.readFile(filePath, 'utf8')] settles to: the text
    of the file, or the error it is rejected with. *)
Inductive ReadResult :=
  | Content (data : str)
  | ReadError (err : str).

(** The file system, as far as the script reads it. *)
Definition FileSystem := str -> ReadResult.

(** The promise of an [async] function: fulfilled with a value, rejected
    with an error, or not settled, which stands for a loop of the body that
    has not ended. *)
Inductive Promise (A : Type) :=
  | Fulfilled (value : A)
  | Rejected (reason : str)
  | Pending.

Arguments Rejected {A} reason.
Arguments Pending {A}.

(** [analyzeFile]: the [await] throws the error of a rejected read, and the
    promise of [analyzeFile] is rejected with it. *)
Definition analyzeFile (fs : FileSystem) (filePath : str)
    : Promise (list ClassifiedImage) :=
  match fs filePath with
  | ReadError err => Rejected err
  | Content content =>
      match extractImageReferences content filePath with
      | None => Pending
      | Some images => Fulfilled (map classify images)
      end
  end.

(** The loop of [main] over [mdFiles], from the value of [allImages] to the
    one after the loop.  The [await] of a rejected [analyzeFile] throws out
    of the loop: [main] is rejected with the same error, which
    [main().catch] logs before [process.exit(1)]. *)
Fixpoint analyzeFiles (fs : FileSystem) (mdFiles : list str)
    (allImages : list ClassifiedImage) : Promise (list ClassifiedImage) :=
  match mdFiles with
  | [] => Fulfilled allImages
  | file :: mdFiles' =>
      match analyzeFile fs file with
      | Fulfilled images => analyzeFiles fs mdFiles' (allImages ++ images)
      | Rejected err => Rejected err
      | Pending => Pending
      end
  end.

(** ** Report aggregation *)

Module Stats.
Record t := { total : nat; needsReplacement : nat }.
End Stats.

Module Location.
Record t := { file : str; line : nat }.
End Location.

Module Entry.
Record t := {
  imagePath : str;
  category : Category;
  referencedIn : list Location.t
}.
End Entry.

Definition ReplacementPlanEntry := Entry.t.

(** An object keyed by category names: its entries in insertion order, the
    order of [Object.entries]. *)
Definition CategoryMap (A : Type) := list (Category * A).

Fixpoint lookup (A : Type) (key : Category) (o : CategoryMap A) : option A :=
  match o with
  | [] => None
  | (k, v) :: o' => if Category_eqb k key then Some v else lookup key o'
  end.

(** [o[key] = v]: an existing key keeps its place, a new one goes last. *)
Fixpoint assign (A : Type) (key : Category) (v : A) (o : CategoryMap A)
    : CategoryMap A :=
  match o with
  | [] => [(key, v)]
  | (k, x) :: o' =>
      if Category_eqb k key then (k, v) :: o' else (k, x) :: assign key v o'
  end.

Module Summary.
Record t := {
  total : nat;
  needsReplacement : nat;
  byCategory : CategoryMap Stats.t
}.
End Summary.

Module Report.
Record t := {
  summary : Summary.t;
  byCategory : CategoryMap (list ClassifiedImage);
  replacementPlan : list ReplacementPlanEntry
}.
End Report.

Definition Report := Report.t.

(** One round of the loop "Group by category": the array of the category is
    created when the key is absent, then the image is pushed onto it. *)
Definition group_by_category_step (byCategory : CategoryMap (list ClassifiedImage))
    (image : ClassifiedImage) : CategoryMap (list ClassifiedImage) :=
  let byCategory1 :=
    match lookup (Image.category image) byCategory with
    | None => assign (Image.category image) [] byCategory
    | Some _ => byCategory
    end in
  match lookup (Image.category image) byCategory1 with
  | Some images => assign (Image.category image) (images ++ [image]) byCategory1
  | None => byCategory1
  end.

(** One round of the loop "Calculate stats per category". *)
Definition stats_step (byCategory : CategoryMap Stats.t)
    (entry : Category * list ClassifiedImage) : CategoryMap Stats.t :=
  let (category, images) := entry in
  assign category
    {| Stats.total := length images;
       Stats.needsReplacement := length (filter Image.needsReplacement images) |}
    byCategory.

(** [new Set(iterable)], spread back into an array: the distinct elements in
    the order of their first occurrence. *)
Definition Set_add (set : list str) (x : str) : list str :=
  if existsb (str_eqb x) set then set else set ++ [x].

Definition Set_from (xs : list str) : list str := fold_left Set_add xs [].

(** The loop "Build replacement plan"; [None] is the TypeError of
    [references[0].category] on an empty array. *)
Fixpoint plan_loop (toReplace : list ClassifiedImage) (uniquePaths : list str)
    (plan : list ReplacementPlanEntry) : option (list ReplacementPlanEntry) :=
  match uniquePaths with
  | [] => Some plan
  | imagePath :: uniquePaths' =>
      let references :=
        filter (fun i => str_eqb (Image.path i) imagePath) toReplace in
      match references with
      | [] => None
      | first :: _ =>
          plan_loop toReplace uniquePaths'
            (plan ++
             [ {| Entry.imagePath := imagePath;
                  Entry.category := Image.category first;
                  Entry.referencedIn :=
                    map (fun r => {| Location.file := Image.sourceFile r;
                                     Location.line := Image.lineNumber r |})
                        references |} ])
      end
  end.

Definition generateReport (allImages : list ClassifiedImage) : option Report :=
  let byCategory := fold_left group_by_category_step allImages [] in
  let stats := fold_left stats_step byCategory [] in
  let toReplace := filter Image.needsReplacement allImages in
  let uniquePaths := Set_from (map Image.path toReplace) in
  match plan_loop toReplace uniquePaths [] with
  | None => None
  | Some plan =>
      Some {| Report.summary :=
                {| Summary.total := length allImages;
                   Summary.needsReplacement :=
                     length (filter Image.needsReplacement allImages);
                   Summary.byCategory := stats |};
              Report.byCategory := byCategory;
              Report.replacementPlan := plan |}
  end.

(** ** Notions used in the statements *)

Definition snoc_match (m : MatchResult) (acc : list MatchResult)
    : list MatchResult := acc ++ [m].

(** The matches that the [while] loop of a pattern goes through. *)
Definition matches (re : RegExp) (content : str) : list MatchResult :=
  match exec_loop (S (length content)) re content 0 snoc_match [] with
  | Some ms => ms
  | None => []
  end.

(** The references pushed by each loop, each with the start offset of its
    match. *)
Definition md_occurrences (content filePath : str) : list (nat * ImageReference) :=
  flat_map (fun m => map (pair (index m)) (md_body content filePath m []))
           (matches mdRegex content).

Definition html_occurrences (content filePath : str) : list (nat * ImageReference) :=
  flat_map (fun m => map (pair (index m)) (html_body content filePath m []))
           (matches htmlRegex content).

Definition occurrences (content filePath : str) : list (nat * ImageReference) :=
  md_occurrences content filePath ++ html_occurrences content filePath.

(** Document order of a list of occurrences: an earlier start offset means an
    earlier place in the list. *)
Definition in_document_order (occ : list (nat * ImageReference)) : Prop :=
  forall a b ia ra ib rb,
    nth_error occ a = Some (ia, ra) ->
    nth_error occ b = Some (ib, rb) ->
    ia < ib -> a < b.

Definition count_newlines (x : str) : nat := count_occ ascii_dec x newline.

(** [word] occurs in [x], letter case ignored. *)
Definition contains_ignoring_case (word x : str) : Prop :=
  exists pre mid post, x = pre ++ mid ++ post /\ toLowerCase mid = word.

Definition keys (A : Type) (o : CategoryMap A) : list Category := map fst o.

(** The sum of a measure over the values of an object. *)
Definition weight (A : Type) (f : A -> nat) (o : CategoryMap A) : nat :=
  list_sum (map (fun e => f (snd e)) o).

Definition location_of (r : ClassifiedImage) : Location.t :=
  {| Location.file := Image.sourceFile r; Location.line := Image.lineNumber r |}.

Definition flagged_with_path (p : str) (i : ClassifiedImage) : bool :=
  Image.needsReplacement i && str_eqb (Image.path i) p.

Definition flagged_count (images : list ClassifiedImage) : nat :=
  length (filter Image.needsReplacement images).

Definition stats_of (images : list ClassifiedImage) : Stats.t :=
  {| Stats.total := length images; Stats.needsReplacement := flagged_count images |}.

(** What the plan loop writes for one path. *)
Definition entry_describes (toReplace : list ClassifiedImage)
    (e : ReplacementPlanEntry) : Prop :=
  let references :=
    filter (fun i => str_eqb (Image.path i) (Entry.imagePath e)) toReplace in
  Entry.referencedIn e = map location_of references /\
  exists first, hd_error references = Some first /\
                Entry.category e = Image.category first.

(** The characters of the literal patterns: lower-case letters and the
    hyphen. *)
Definition is_pattern_char (c : ascii) : bool :=
  let n := N_of_ascii c in ((97 <=? n) && (n <=? 122) || (n =? 45))%N.

Definition literal (word : str) : list node := map (fun c => One (Chr c)) word.

(** The text of a literal pattern. *)
Definition word_of (re : RegExp) : str :=
  flat_map (fun n => match n with One (Chr c) => [c] | _ => [] end) (nodes re).

(** A pattern of the form [/word/i], the word made of pattern characters. *)
Definition is_plain_literal (re : RegExp) : bool :=
  ignoreCase re && negb (global re) &&
  forallb (fun n => match n with One (Chr c) => is_pattern_char c | _ => false end)
          (nodes re).

Definition pattern_matches (imagePath : str) (pattern : RegExp) : Prop :=
  test pattern (toLowerCase imagePath) = true.

Definition category_matches (imagePath : str) (config : CategoryConfig) : Prop :=
  exists pattern, In pattern (patterns config) /\ pattern_matches imagePath pattern.

Definition all_chars : list ascii := map ascii_of_nat (seq 0 256).

Definition is_some (A : Type) (o : option A) : bool :=
  match o with Some _ => true | None => false end.

(** A match of [re] in [content]: the matcher succeeds at [index], and the
    texts of the array are cut out of [content] at the recorded offsets. *)
Definition is_match (re : RegExp) (content : str) (m : MatchResult) : Prop :=
  exists e caps,
    run (ignoreCase re) (nodes re) (skipn (index m) content) (index m) []
      = Some (e, caps) /\
    index m <= e <= length content /\
    groups m = substring content (index m) e :: group_texts content caps.

Definition starts_with_a_character (re : RegExp) : Prop :=
  exists a prog, nodes re = One a :: prog.

(** A file system that holds the documents of a table, each under its path,
    and rejects the read of any other path. *)
Fixpoint files_of (table : list (str * str)) : FileSystem :=
  fun filePath =>
    match table with
    | [] => ReadError (txt "ENOENT")
    | (file, content) :: table' =>
        if str_eqb filePath file then Content content
        else files_of table' filePath
    end.

(** The scenario of two documents that reference one flagged image. *)
Definition two_documents : list (str * str) :=
  [ (txt "a.md", txt "![Users](images/admin-users.png)");
    (txt "b.md", txt "<img src='images/admin-users.png'>") ].

Definition two_documents_images : list ClassifiedImage :=
  Eval vm_compute in
    match analyzeFiles (files_of two_documents) (map fst two_documents) [] with
    | Fulfilled l => l
    | _ => []
    end.



(** ** Notions used in the further properties *)

(** The offset just after a match. *)
Definition span_end (m : MatchResult) : nat := index m + length (group m 0).

(** The matcher of [re] fails at offset [j] of [content]. *)
Definition no_match_at (re : RegExp) (content : str) (j : nat) : Prop :=
  run (ignoreCase re) (nodes re) (skipn j content) j [] = None.

(** What the scan loop of [re], started at [lastIndex], has gone through
    when it has met the matches [ms]: every match lies within the text and
    is not empty, it starts at or after the end of the match before it, and
    the matcher fails at every offset left between the matches. *)
Fixpoint scanned (re : RegExp) (content : str) (lastIndex : nat)
    (ms : list MatchResult) : Prop :=
  match ms with
  | [] => forall j, lastIndex <= j <= length content -> no_match_at re content j
  | m :: ms' =>
      lastIndex <= index m /\
      index m < span_end m <= length content /\
      (forall j, lastIndex <= j < index m -> no_match_at re content j) /\
      scanned re content (span_end m) ms'
  end.

(** The number of lines of a text. *)
Definition line_count (content : str) : nat := length (split newline content).

(** The references of one category. *)
Definition in_category (k : Category) (i : ClassifiedImage) : bool :=
  Category_eqb (Image.category i) k.

(** The distinct elements of a list, each at the place of its first
    occurrence. *)
Fixpoint first_occurrences (A : Type) (eqb : A -> A -> bool) (l : list A)
    : list A :=
  match l with
  | [] => []
  | x :: l' => x :: filter (fun y => negb (eqb x y)) (first_occurrences eqb l')
  end.

(** Adding a key to a list of distinct keys. *)
Definition add_once (A : Type) (eqb : A -> A -> bool) (set : list A) (x : A)
    : list A :=
  if existsb (eqb x) set then set else set ++ [x].

(** An image whose category and flag are those of its path, as every
    result of [analyzeFile] is. *)
Definition classified (i : ClassifiedImage) : Prop :=
  Image.category i = categorizeScreenshot (Image.path i) /\
  Image.needsReplacement i = isCamundaSpecific (Image.path i).

(** The images of one document. *)
Definition images_of (document : str * str) : list ClassifiedImage :=
  map classify (map snd (occurrences (snd document) (fst document))).

(** A document of the file system, with the text that a read of it gives. *)
Definition document (fs : FileSystem) (file : str) : str * str :=
  (file, match fs file with Content content => content | ReadError _ => [] end).

Definition readable (fs : FileSystem) (file : str) : Prop :=
  exists content, fs file = Content content.

(** ** Notions used for the filter of the markdown form *)








(** The offset [i] lies inside a markdown match that starts before it. *)
Definition inside_a_match (content : str) (i : nat) : Prop :=
  exists m, In m (matches mdRegex content) /\ index m < i < span_end m.


(** ** The replacement plan as a markdown text *)

(** What [generateMarkdownReport] takes from outside the script: the text of
    [new Date().toISOString()], and Node's [path.basename] and
    [path.relative('.', file)]. *)
Record Env := {
  toISOString : str;
  basename : str -> str;
  relative : str -> str
}.

(** [String.prototype.replace] with a pattern and a replacement of one code
    unit: the first occurrence is replaced. *)
Fixpoint replace_first (pattern replacement : ascii) (x : str) : str :=
  match x with
  | [] => []
  | c :: x' =>
      if Ascii.eqb c pattern then replacement :: x'
      else c :: replace_first pattern replacement x'
  end.

(** A natural number in a template literal: its decimal digits. *)
Definition String_of_nat (n : nat) : str :=
  txt (NilEmpty.string_of_uint (Nat.to_uint n)).

(** The keys of [CATEGORIES] as texts. *)
Definition category_name (c : Category) : str :=
  match c with
  | cockpit => txt "cockpit"
  | tasklist => txt "tasklist"
  | admin => txt "admin"
  | welcome => txt "welcome"
  | modeler => txt "modeler"
  | other => txt "other"
  end.

(** [category.charAt(0).toUpperCase() + category.slice(1)]; the first code
    unit of a category name is a letter a-z, whose upper case is its
    canonical form. *)
Definition capitalize (x : str) : str :=
  match x with
  | [] => []
  | c :: rest => canonicalize c :: rest
  end.

(** A line of a template literal, and an empty line. *)
Definition ln (text : string) : str := txt text ++ [newline].
Definition blank : str := [newline].

Definition report_header (env : Env) (summary : Summary.t) : str :=
  ln "# Operaton Screenshot Replacement Plan"
  ++ blank
  ++ txt "Generated: "
  ++ substring (replace_first "T" " " (toISOString env)) 0 19 ++ [newline]
  ++ blank
  ++ ln "## Summary"
  ++ blank
  ++ ln "| Metric | Count |"
  ++ ln "|--------|-------|"
  ++ txt "| Total screenshots | " ++ String_of_nat (Summary.total summary)
  ++ ln " |"
  ++ txt "| Need replacement | "
  ++ String_of_nat (Summary.needsReplacement summary) ++ ln " |"
  ++ blank
  ++ ln "## By Category"
  ++ blank
  ++ ln "| Category | Total | Need Replacement |"
  ++ ln "|----------|-------|------------------|".

Definition PLAN_HEADING : str :=
  blank
  ++ ln "## Replacement Plan"
  ++ blank
  ++ ln "Screenshots that need to be replaced with Operaton equivalents:"
  ++ blank.

Definition REPORT_FOOTER : str :=
  blank
  ++ ln "## Next Steps"
  ++ blank
  ++ ln "1. **Deploy processes to Operaton**"
  ++ ln "   ```bash"
  ++ ln "   npm run deploy-processes"
  ++ ln "   ```"
  ++ blank
  ++ ln "2. **Generate test data**"
  ++ ln "   ```bash"
  ++ ln "   npm run generate-data"
  ++ ln "   ```"
  ++ blank
  ++ ln "3. **Capture screenshots**"
  ++ ln "   ```bash"
  ++ ln "   npm run capture-screenshots"
  ++ ln "   ```"
  ++ blank
  ++ ln "4. **Copy screenshots to documentation**"
  ++ ln "   - Review captured screenshots in `output/screenshots/`"
  ++ ln "   - Copy to appropriate locations in docs"
  ++ ln "   - Update any path references if needed"
  ++ blank
  ++ ln "## Configuration"
  ++ blank
  ++ ln "To customize which screenshots to capture, edit `config/screenshots.json`.".

(** One round of the loop over [report.summary.byCategory]. *)
Definition category_row (md : str) (entry : Category * Stats.t) : str :=
  let (category, stats) := entry in
  md ++ txt "| " ++ category_name category ++ txt " | "
     ++ String_of_nat (Stats.total stats) ++ txt " | "
     ++ String_of_nat (Stats.needsReplacement stats) ++ ln " |".

(** One round of [item.referencedIn.slice(0, 3).forEach]. *)
Definition location_line (env : Env) (md : str) (ref : Location.t) : str :=
  md ++ txt "    - " ++ relative env (Location.file ref) ++ txt ":"
     ++ String_of_nat (Location.line ref) ++ [newline].

(** One round of the loop over [items.slice(0, 20)]. *)
Definition item_block (env : Env) (md : str) (item : ReplacementPlanEntry) : str :=
  let md1 := md ++ txt "- **" ++ basename env (Entry.imagePath item) ++ ln "**" in
  let md2 := md1 ++ txt "  - Path: `" ++ Entry.imagePath item ++ ln "`" in
  let md3 := md2 ++ txt "  - Referenced in: "
                 ++ String_of_nat (length (Entry.referencedIn item))
                 ++ ln " file(s)" in
  let md4 := fold_left (location_line env) (firstn 3 (Entry.referencedIn item)) md3 in
  let md5 :=
    if 3 <? length (Entry.referencedIn item)
    then md4 ++ txt "    - ... and "
             ++ String_of_nat (length (Entry.referencedIn item) - 3)
             ++ ln " more"
    else md4 in
  md5 ++ [newline].

(** [report.replacementPlan.filter(i => i.category === category)] *)
Definition section_items (report : Report) (category : Category)
    : list ReplacementPlanEntry :=
  filter (fun i => Category_eqb (Entry.category i) category)
         (Report.replacementPlan report).

(** One round of the loop over the entries of [CATEGORIES]. *)
Definition category_section (env : Env) (report : Report) (md : str)
    (entry : Category * CategoryConfig) : str :=
  let category := fst entry in
  let items := section_items report category in
  if length items =? 0 then md
  else
    let md1 := md ++ txt "### " ++ capitalize (category_name category)
                  ++ txt " (" ++ String_of_nat (length items) ++ ln ")"
                  ++ blank in
    let md2 := fold_left (item_block env) (firstn 20 items) md1 in
    if 20 <? length items
    then md2 ++ txt "... and " ++ String_of_nat (length items - 20)
             ++ txt " more " ++ category_name category ++ ln " screenshots"
             ++ blank
    else md2.

Definition generateMarkdownReport (env : Env) (report : Report) : str :=
  let md := report_header env (Report.summary report) in
  let md1 := fold_left category_row (Summary.byCategory (Report.summary report)) md in
  let md2 := md1 ++ PLAN_HEADING in
  let md3 := fold_left (category_section env report) CATEGORIES md2 in
  md3 ++ REPORT_FOOTER.

(** The environment of the examples: a fixed instant, and paths that
    [basename] and [relative] leave as they are. *)
Definition example_env : Env :=
  {| toISOString := txt "2025-03-09T14:05:59.123Z";
     basename := fun p => p;
     relative := fun p => p |}.

(** [part] occurs in [text]. *)
Definition occurs_in (part text : str) : Prop :=
  exists before after, text = before ++ part ++ after.

(** The titles of the sections of the plan. *)
Definition section_title (c : Category) : str :=
  match c with
  | cockpit => txt "Cockpit"
  | tasklist => txt "Tasklist"
  | admin => txt "Admin"
  | welcome => txt "Welcome"
  | modeler => txt "Modeler"
  | other => txt "Other"
  end.

(** The heading of the section of a category with [n] entries. *)
Definition section_heading (c : Category) (n : nat) : str :=
  txt "### " ++ section_title c ++ txt " (" ++ String_of_nat n ++ txt ")"
  ++ [newline].

(** The three lines that present an entry of the plan. *)
Definition entry_lines (env : Env) (e : ReplacementPlanEntry) : str :=
  txt "- **" ++ basename env (Entry.imagePath e) ++ txt "**" ++ [newline]
  ++ txt "  - Path: `" ++ Entry.imagePath e ++ txt "`" ++ [newline]
  ++ txt "  - Referenced in: " ++ String_of_nat (length (Entry.referencedIn e))
  ++ txt " file(s)" ++ [newline].

(** The lines of the first three locations of an entry. *)
Definition location_lines (env : Env) (e : ReplacementPlanEntry) : str :=
  flat_map (fun ref =>
              txt "    - " ++ relative env (Location.file ref) ++ txt ":"
              ++ String_of_nat (Location.line ref) ++ [newline])
           (firstn 3 (Entry.referencedIn e)).

(** The line that stands for the locations of an entry beyond the ones
    listed. *)
Definition more_locations_line (n : nat) : str :=
  txt "    - ... and " ++ String_of_nat n ++ txt " more" ++ [newline].

(** The line that stands for the entries of a category beyond the ones
    listed. *)
Definition more_entries_line (c : Category) (n : nat) : str :=
  txt "... and " ++ String_of_nat n ++ txt " more " ++ category_name c
  ++ txt " screenshots" ++ [newline].

(** Two entries that differ at most in their category and in their
    locations after the third one. *)
Definition same_shown (e e' : ReplacementPlanEntry) : Prop :=
  Entry.imagePath e = Entry.imagePath e' /\
  length (Entry.referencedIn e) = length (Entry.referencedIn e') /\
  firstn 3 (Entry.referencedIn e) = firstn 3 (Entry.referencedIn e').

(** Four references to one flagged image, the last one in [lastFile]. *)
Definition four_references (lastFile : str) : list ClassifiedImage :=
  map (fun file =>
         classify {| Ref.alt := []; Ref.path := txt "cockpit.png";
                     Ref.fullMatch := txt "<img src='cockpit.png'>";
                     Ref.sourceFile := file; Ref.lineNumber := 1 |})
      [ txt "a.md"; txt "b.md"; txt "c.md"; lastFile ].

(** The report of these references. *)
Definition four_references_report (lastFile : str) : Report :=
  match generateReport (four_references lastFile) with
  | Some report => report
  | None => {| Report.summary :=
                 {| Summary.total := 0; Summary.needsReplacement := 0;
                    Summary.byCategory := [] |};
               Report.byCategory := [];
               Report.replacementPlan := [] |}
  end.

(** ** Equality tests *)

Lemma str_eqb_eq (a b : str) : str_eqb a b = true <-> a = b.
Proof.
  unfold str_eqb. destruct (list_eq_dec ascii_dec a b); split; congruence.
Qed.

Lemma str_eqb_refl (a : str) : str_eqb a a = true.
Proof. now apply str_eqb_eq. Qed.

Lemma Category_eqb_eq (a b : Category) : Category_eqb a b = true <-> a = b.
Proof. destruct a, b; simpl; split; congruence. Qed.

(** ** Objects keyed by category *)

Section CategoryMapFacts.
Variable A : Type.
Implicit Types (o : CategoryMap A) (k : Category).

Lemma lookup_None o k : lookup k o = None <-> ~ In k (keys o).
Proof.
  induction o as [|[k' v] o IH]; simpl; [tauto|].
  destruct (Category_eqb k' k) eqn:E.
  - apply Category_eqb_eq in E. split; [discriminate|intros H; exfalso; auto].
  - rewrite IH. split; intros H; [intros [->|?]|]; try tauto.
    rewrite (proj2 (Category_eqb_eq k k) eq_refl) in E. discriminate.
Qed.

Lemma assign_absent o k v : lookup k o = None -> assign k v o = o ++ [(k, v)].
Proof.
  induction o as [|[k' x] o IH]; simpl; [reflexivity|].
  destruct (Category_eqb k' k); [discriminate|]. intros H. now rewrite IH.
Qed.

Lemma keys_assign_present o k v0 v :
  lookup k o = Some v0 -> keys (assign k v o) = keys o.
Proof.
  induction o as [|[k' x] o IH]; simpl; [discriminate|].
  destruct (Category_eqb k' k); simpl; [reflexivity|].
  intros H. now rewrite IH.
Qed.

Lemma lookup_assign o k v : lookup k (assign k v o) = Some v.
Proof.
  induction o as [|[k' x] o IH]; simpl.
  - now rewrite (proj2 (Category_eqb_eq k k) eq_refl).
  - destruct (Category_eqb k' k) eqn:E; simpl; now rewrite E.
Qed.

Lemma weight_app (f : A -> nat) o1 o2 :
  weight f (o1 ++ o2) = weight f o1 + weight f o2.
Proof. unfold weight. now rewrite map_app, list_sum_app. Qed.

Lemma weight_assign_present (f : A -> nat) o k v0 v :
  lookup k o = Some v0 ->
  weight f (assign k v o) + f v0 = weight f o + f v.
Proof.
  unfold weight. induction o as [|[k' x] o IH]; simpl; [discriminate|].
  destruct (Category_eqb k' k); simpl.
  - intros [= ->]. lia.
  - intros H. specialize (IH H). lia.
Qed.
End CategoryMapFacts.

(** ** The grouping loops of [generateReport] *)

Lemma flagged_count_app (l1 l2 : list ClassifiedImage) :
  flagged_count (l1 ++ l2) = flagged_count l1 + flagged_count l2.
Proof. unfold flagged_count. now rewrite filter_app, length_app. Qed.

Lemma flagged_count_le (l : list ClassifiedImage) : flagged_count l <= length l.
Proof. apply filter_length_le. Qed.

Lemma group_step_keys (o : CategoryMap (list ClassifiedImage)) image :
  NoDup (keys o) -> NoDup (keys (group_by_category_step o image)).
Proof.
  intros ND. unfold group_by_category_step.
  destruct (lookup (Image.category image) o) as [arr|] eqn:L.
  - rewrite L. now rewrite (keys_assign_present _ _ _ L).
  - rewrite lookup_assign.
    rewrite (keys_assign_present _ _ _ (lookup_assign o _ [])).
    rewrite (assign_absent _ _ _ L). unfold keys. rewrite map_app. simpl.
    apply NoDup_app; [assumption|repeat constructor; simpl; tauto|].
    intros k Hk [<-|[]]. now apply lookup_None in L.
Qed.

Lemma group_step_weight (f : list ClassifiedImage -> nat) (d : ClassifiedImage -> nat)
    (o : CategoryMap (list ClassifiedImage)) image :
  f [] = 0 ->
  (forall l x, f (l ++ [x]) = f l + d x) ->
  weight f (group_by_category_step o image) = weight f o + d image.
Proof.
  intros Hnil Hsnoc. unfold group_by_category_step.
  destruct (lookup (Image.category image) o) as [arr|] eqn:L.
  - rewrite L.
    pose proof (weight_assign_present f _ _ (arr ++ [image]) L) as H.
    rewrite Hsnoc in H. lia.
  - rewrite lookup_assign.
    pose proof (weight_assign_present f _ _ ([] ++ [image])
                  (lookup_assign o (Image.category image) [])) as H.
    rewrite (assign_absent _ _ _ L) in H at 2.
    rewrite weight_app, Hsnoc, Hnil in H. unfold weight at 3 in H. simpl in H.
    rewrite Hnil in H. simpl. lia.
Qed.

Lemma group_fold_keys (images : list ClassifiedImage) o :
  NoDup (keys o) -> NoDup (keys (fold_left group_by_category_step images o)).
Proof.
  revert o. induction images as [|i images IH]; simpl; intros o ND; [assumption|].
  apply IH. now apply group_step_keys.
Qed.

Lemma group_fold_total (images : list ClassifiedImage) o :
  weight (@length _) (fold_left group_by_category_step images o)
  = weight (@length _) o + length images.
Proof.
  revert o. induction images as [|i images IH]; simpl; intros o; [lia|].
  rewrite IH, (group_step_weight (@length _) (fun _ => 1)); [lia|reflexivity|].
  intros l x. rewrite length_app. reflexivity.
Qed.

Lemma group_fold_flagged (images : list ClassifiedImage) o :
  weight flagged_count (fold_left group_by_category_step images o)
  = weight flagged_count o + flagged_count images.
Proof.
  revert o. induction images as [|i images IH]; simpl; intros o; [unfold flagged_count; simpl; lia|].
  rewrite IH.
  rewrite (group_step_weight flagged_count (fun x => flagged_count [x]));
    [|reflexivity|intros; apply flagged_count_app].
  change (i :: images) with ([i] ++ images). rewrite flagged_count_app. lia.
Qed.

Lemma stats_fold (o : CategoryMap (list ClassifiedImage)) (acc : CategoryMap Stats.t) :
  NoDup (keys acc ++ keys o) ->
  fold_left stats_step o acc = acc ++ map (fun e => (fst e, stats_of (snd e))) o.
Proof.
  revert acc. induction o as [|[k images] o IH]; simpl; intros acc ND.
  - now rewrite app_nil_r.
  - assert (La : lookup k acc = None).
    { apply lookup_None. intros Hin. apply NoDup_remove_2 in ND.
      apply ND, in_or_app. now left. }
    fold (flagged_count images). rewrite (assign_absent _ _ _ La).
    rewrite IH.
    + rewrite <- app_assoc. reflexivity.
    + unfold keys in *. rewrite map_app. simpl. rewrite <- app_assoc. simpl.
      apply NoDup_Add with (a := k) (l := map fst acc ++ map fst o).
      * apply Add_app.
      * split; [now apply NoDup_remove_1 in ND|now apply NoDup_remove_2 in ND].
Qed.

(** ** The replacement plan *)

Lemma Set_add_fold_In (xs acc : list str) (x : str) :
  In x (fold_left Set_add xs acc) <-> In x acc \/ In x xs.
Proof.
  revert acc. induction xs as [|y xs IH]; simpl; intros acc; [tauto|].
  rewrite IH. unfold Set_add.
  destruct (existsb (str_eqb y) acc) eqn:E.
  - apply existsb_exists in E as (z & Hz & Hyz). apply str_eqb_eq in Hyz. subst z.
    split; [tauto|]. intros [H|[<-|H]]; tauto.
  - rewrite in_app_iff. simpl. tauto.
Qed.

Lemma Set_add_fold_NoDup (xs acc : list str) :
  NoDup acc -> NoDup (fold_left Set_add xs acc).
Proof.
  revert acc. induction xs as [|y xs IH]; simpl; intros acc ND; [assumption|].
  apply IH. unfold Set_add.
  destruct (existsb (str_eqb y) acc) eqn:E; [assumption|].
  apply NoDup_app; [assumption|repeat constructor; simpl; tauto|].
  intros z Hz [<-|[]].
  assert (existsb (str_eqb y) acc = true); [|congruence].
  apply existsb_exists. exists y. split; [assumption|apply str_eqb_refl].
Qed.

Lemma Set_from_In (xs : list str) (x : str) : In x (Set_from xs) <-> In x xs.
Proof. unfold Set_from. rewrite Set_add_fold_In. simpl. tauto. Qed.

Lemma Set_from_NoDup (xs : list str) : NoDup (Set_from xs).
Proof. apply Set_add_fold_NoDup. constructor. Qed.

Lemma filter_flagged_path (p : str) (l : list ClassifiedImage) :
  filter (fun i => str_eqb (Image.path i) p) (filter Image.needsReplacement l)
  = filter (flagged_with_path p) l.
Proof.
  unfold flagged_with_path.
  induction l as [|i l IH]; simpl; [reflexivity|].
  destruct (Image.needsReplacement i); simpl; [|assumption].
  destruct (str_eqb (Image.path i) p); now rewrite IH.
Qed.

Lemma find_filter (A : Type) (f : A -> bool) (l : list A) :
  find f l = hd_error (filter f l).
Proof.
  induction l as [|x l IH]; simpl; [reflexivity|]. now destruct (f x).
Qed.

Lemma plan_loop_spec toReplace uniquePaths plan out :
  plan_loop toReplace uniquePaths plan = Some out ->
  exists added, out = plan ++ added /\
                map Entry.imagePath added = uniquePaths /\
                Forall (entry_describes toReplace) added.
Proof.
  revert plan. induction uniquePaths as [|p ps IH]; simpl; intros plan H.
  - injection H as <-. exists []. now rewrite app_nil_r.
  - destruct (filter (fun i => str_eqb (Image.path i) p) toReplace)
      as [|first rest] eqn:F; [discriminate|].
    apply IH in H as (added & -> & Hp & Hd).
    eexists (_ :: added). rewrite <- app_assoc. simpl.
    split; [reflexivity|]. split; [simpl; now rewrite Hp|].
    constructor; [|assumption].
    unfold entry_describes. simpl. rewrite F. split; [reflexivity|].
    exists first. now split.
Qed.

Lemma plan_loop_total toReplace uniquePaths plan :
  (forall p, In p uniquePaths -> In p (map Image.path toReplace)) ->
  exists out, plan_loop toReplace uniquePaths plan = Some out.
Proof.
  revert plan. induction uniquePaths as [|p ps IH]; simpl; intros plan Hin.
  - now eexists.
  - destruct (filter (fun i => str_eqb (Image.path i) p) toReplace)
      as [|first rest] eqn:F.
    + exfalso. destruct (proj1 (in_map_iff _ _ _) (Hin p (or_introl eq_refl)))
        as (i & Hi & Hini).
      assert (In i (filter (fun i => str_eqb (Image.path i) p) toReplace)).
      { apply filter_In. split; [assumption|]. now apply str_eqb_eq. }
      rewrite F in H. contradiction.
    + apply IH. intros q Hq. apply Hin. now right.
Qed.

Lemma generateReport_total (allImages : list ClassifiedImage) :
  exists report, generateReport allImages = Some report.
Proof.
  unfold generateReport.
  destruct (plan_loop_total (filter Image.needsReplacement allImages)
              (Set_from (map Image.path (filter Image.needsReplacement allImages)))
              []) as (out & ->).
  - intros p. apply Set_from_In.
  - now eexists.
Qed.


(** ** Properties of the report *)

Lemma generateReport_inv (allImages : list ClassifiedImage) (report : Report) :
  generateReport allImages = Some report ->
  let toReplace := filter Image.needsReplacement allImages in
  Report.summary report =
    {| Summary.total := length allImages;
       Summary.needsReplacement := flagged_count allImages;
       Summary.byCategory :=
         map (fun e => (fst e, stats_of (snd e))) (Report.byCategory report) |} /\
  Report.byCategory report = fold_left group_by_category_step allImages [] /\
  map Entry.imagePath (Report.replacementPlan report)
    = Set_from (map Image.path toReplace) /\
  Forall (entry_describes toReplace) (Report.replacementPlan report).
Proof.
  unfold generateReport. intros H.
  destruct (plan_loop _ _ _) as [plan|] eqn:P; [|discriminate].
  injection H as <-. simpl.
  apply plan_loop_spec in P as (added & -> & Hpaths & Hdesc). simpl.
  repeat split; try assumption.
  rewrite stats_fold; [reflexivity|]. simpl.
  apply group_fold_keys. constructor.
Qed.

(** C1: in the report of any list of classified references, the per-category
    totals add up to the overall total (the number of references), the
    flagged count of a category is at most its total, and the per-category
    flagged counts add up to the global flagged count. *)
Theorem report_counts_consistent (allImages : list ClassifiedImage) :
  exists report,
    generateReport allImages = Some report /\
    let s := Report.summary report in
    Summary.total s = length allImages /\
    weight Stats.total (Summary.byCategory s) = Summary.total s /\
    Forall (fun e => Stats.needsReplacement (snd e) <= Stats.total (snd e))
           (Summary.byCategory s) /\
    weight Stats.needsReplacement (Summary.byCategory s)
      = Summary.needsReplacement s.
Proof.
  destruct (generateReport_total allImages) as (report & H).
  exists report. split; [assumption|].
  destruct (generateReport_inv _ H) as (Hs & Hg & _ & _).
  rewrite Hs. simpl. split; [reflexivity|].
  assert (W : forall (f : Stats.t -> nat) o,
             weight f (map (fun e : Category * list ClassifiedImage =>
                              (fst e, stats_of (snd e))) o)
             = weight (fun l => f (stats_of l)) o).
  { intros f o. unfold weight. rewrite map_map. reflexivity. }
  repeat split.
  - rewrite W, Hg. simpl.
    change (fun l : list ClassifiedImage => length l) with (@length ClassifiedImage).
    now rewrite group_fold_total.
  - apply Forall_forall. intros e He. apply in_map_iff in He as (x & <- & _).
    simpl. apply flagged_count_le.
  - rewrite W, Hg. simpl.
    change (fun l : list ClassifiedImage => flagged_count l) with flagged_count.
    now rewrite group_fold_flagged.
Qed.

Lemma entry_describes_flagged (allImages : list ClassifiedImage) e :
  entry_describes (filter Image.needsReplacement allImages) e ->
  (exists first,
      find (flagged_with_path (Entry.imagePath e)) allImages = Some first /\
      Entry.category e = Image.category first) /\
  Entry.referencedIn e
    = map location_of (filter (flagged_with_path (Entry.imagePath e)) allImages).
Proof.
  unfold entry_describes. rewrite filter_flagged_path, find_filter. tauto.
Qed.

(** C8: the replacement plan has exactly one entry per distinct path among
    the flagged references; the category of an entry is that of the first
    flagged reference with its path, and its locations are the (document,
    line) pairs of all flagged references with that path, in the order of
    the input.  Two flagged references with the same path, as from two
    documents, give one entry with two locations. *)
Theorem replacement_plan_by_path :
  (forall allImages : list ClassifiedImage,
      exists report,
        generateReport allImages = Some report /\
        let plan := Report.replacementPlan report in
        NoDup (map Entry.imagePath plan) /\
        (forall p, In p (map Entry.imagePath plan) <->
                   exists i, In i allImages /\
                             Image.needsReplacement i = true /\
                             Image.path i = p) /\
        Forall (fun e =>
                  (exists first,
                      find (flagged_with_path (Entry.imagePath e)) allImages
                        = Some first /\
                      Entry.category e = Image.category first) /\
                  Entry.referencedIn e
                    = map location_of
                        (filter (flagged_with_path (Entry.imagePath e)) allImages))
               plan) /\
  (forall i1 i2 : ClassifiedImage,
      Image.needsReplacement i1 = true ->
      Image.needsReplacement i2 = true ->
      Image.path i2 = Image.path i1 ->
      exists report,
        generateReport [i1; i2] = Some report /\
        Report.replacementPlan report =
          [ {| Entry.imagePath := Image.path i1;
               Entry.category := Image.category i1;
               Entry.referencedIn := [location_of i1; location_of i2] |} ]).
Proof.
  split.
  - intros allImages.
    destruct (generateReport_total allImages) as (report & H).
    exists report. split; [assumption|].
    destruct (generateReport_inv _ H) as (_ & _ & Hp & Hd). simpl.
    rewrite Hp. split; [apply Set_from_NoDup|]. split.
    + intros p. rewrite Set_from_In, in_map_iff. split.
      * intros (i & <- & Hi). apply filter_In in Hi. exists i. tauto.
      * intros (i & Hi & Hf & <-). exists i. split; [reflexivity|].
        apply filter_In. tauto.
    + eapply Forall_impl; [|exact Hd]. intros e. apply entry_describes_flagged.
  - intros i1 i2 H1 H2 H12. unfold generateReport. simpl.
    rewrite H1, H2. simpl. unfold Set_from. simpl. unfold Set_add at 2. simpl.
    unfold Set_add. simpl. rewrite H12, str_eqb_refl. simpl.
    rewrite str_eqb_refl, H12, str_eqb_refl. simpl.
    eexists. split; reflexivity.
Qed.


(** ** The matcher *)

Section Matcher.
Variable ic : bool.

Lemma greedy_some (R : Type) (p : ascii -> bool) (k : str -> nat -> option R)
    (x : str) (pos : nat) (r : R) :
  greedy p k x pos = Some r ->
  exists n, n <= length x /\ forallb p (firstn n x) = true /\
            k (skipn n x) (pos + n) = Some r.
Proof.
  revert pos. induction x as [|c x IH]; simpl; intros pos H.
  - exists 0. rewrite Nat.add_0_r. auto.
  - destruct (p c) eqn:Pc.
    + destruct (greedy p k x (S pos)) as [r'|] eqn:G.
      * injection H as <-. apply IH in G as (n & Hn & Hall & Hk).
        exists (S n). simpl. rewrite Pc, Hall.
        replace (pos + S n) with (S pos + n) by lia.
        repeat split; [lia|assumption].
      * exists 0. rewrite Nat.add_0_r. simpl. repeat split; [lia|assumption].
    + exists 0. rewrite Nat.add_0_r. simpl. repeat split; [lia|assumption].
Qed.

Lemma run_bounds (prog : list node) (x : str) (pos : nat) (caps : list nat)
    (e : nat) (caps' : list nat) :
  run ic prog x pos caps = Some (e, caps') -> pos <= e <= pos + length x.
Proof.
  revert x pos caps.
  induction prog as [|[a|a|a| |] prog IH]; simpl; intros x pos caps H.
  - injection H as <- <-. lia.
  - destruct x as [|c x]; [discriminate|].
    destruct (accepts ic a c); [|discriminate].
    apply IH in H. simpl. lia.
  - apply greedy_some in H as (n & Hn & _ & H). apply IH in H.
    rewrite length_skipn in H. lia.
  - destruct x as [|c x]; [discriminate|].
    destruct (accepts ic a c); [|discriminate].
    apply greedy_some in H as (n & Hn & _ & H). apply IH in H.
    rewrite length_skipn in H. simpl. lia.
  - apply IH in H. lia.
  - apply IH in H. lia.
Qed.

Lemma run_progress (a : atom) (prog : list node) (x : str) (pos : nat)
    (caps : list nat) (e : nat) (caps' : list nat) :
  run ic (One a :: prog) x pos caps = Some (e, caps') -> pos < e.
Proof.
  simpl. destruct x as [|c x]; [discriminate|].
  destruct (accepts ic a c); [|discriminate].
  intros H. apply run_bounds in H. lia.
Qed.

Lemma search_some (prog : list node) (x : str) (pos i e : nat) (caps : list nat) :
  search ic prog x pos = Some (i, e, caps) ->
  pos <= i <= pos + length x /\
  run ic prog (skipn (i - pos) x) i [] = Some (e, caps).
Proof.
  revert pos. induction x as [|c x IH]; simpl; intros pos H.
  - destruct (run ic prog [] pos []) as [[e' caps']|] eqn:R; [|discriminate].
    injection H as <- <- <-. rewrite Nat.sub_diag. simpl. split; [lia|assumption].
  - destruct (run ic prog (c :: x) pos []) as [[e' caps']|] eqn:R.
    + injection H as <- <- <-. rewrite Nat.sub_diag. simpl. split; [lia|assumption].
    + apply IH in H as (Hi & H). split; [lia|].
      replace (i - pos) with (S (i - S pos)) by lia. exact H.
Qed.
End Matcher.

Lemma exec_global (re : RegExp) (content : str) (lastIndex : nat)
    (m : MatchResult) (lastIndex' : nat) :
  global re = true ->
  exec re content lastIndex = (Some m, lastIndex') ->
  lastIndex <= index m <= lastIndex' /\ lastIndex' <= length content /\
  is_match re content m /\
  group m 0 = substring content (index m) lastIndex'.
Proof.
  unfold exec. intros -> H.
  destruct (length content <? lastIndex) eqn:Len; [discriminate|].
  apply Nat.ltb_ge in Len.
  destruct (search _ _ _ _) as [[[i e] caps]|] eqn:S; [|discriminate].
  injection H as <- <-. simpl.
  apply search_some in S as (Hi & R).
  rewrite length_skipn in Hi.
  rewrite skipn_skipn in R. replace (i - lastIndex + lastIndex) with i in R by lia.
  pose proof (run_bounds _ _ _ _ _ R) as B. rewrite length_skipn in B.
  repeat split; try lia.
  exists e, caps. simpl. repeat split; try assumption; lia.
Qed.

Lemma exec_progress (re : RegExp) (content : str) (lastIndex : nat)
    (m : MatchResult) (lastIndex' : nat) :
  global re = true -> starts_with_a_character re ->
  exec re content lastIndex = (Some m, lastIndex') ->
  index m < lastIndex'.
Proof.
  intros G (a & prog & N) H. unfold exec in H. rewrite G in H.
  destruct (length content <? lastIndex); [discriminate|].
  destruct (search _ _ _ _) as [[[i e] caps]|] eqn:S; [|discriminate].
  injection H as <- <-. simpl.
  apply search_some in S as (_ & R). rewrite N in R.
  now apply run_progress in R.
Qed.

(** ** The [while] loops over the matches *)

Section ExecLoop.
Variables (re : RegExp) (content : str).

Lemma exec_loop_snoc (fuel lastIndex : nat) (acc : list MatchResult) :
  exec_loop fuel re content lastIndex snoc_match acc
  = option_map (app acc) (exec_loop fuel re content lastIndex snoc_match []).
Proof.
  revert lastIndex acc. induction fuel as [|fuel IH]; intros li acc; simpl.
  - reflexivity.
  - destruct (exec re content li) as [[m|] li']; simpl.
    + rewrite (IH li' (snoc_match m acc)), (IH li' (snoc_match m [])).
      destruct (exec_loop fuel re content li' snoc_match []); simpl;
        [|reflexivity].
      unfold snoc_match. now rewrite <- app_assoc.
    + now rewrite app_nil_r.
Qed.

Lemma exec_loop_fold (A : Type) (body : MatchResult -> A -> A)
    (fuel lastIndex : nat) (acc : A) :
  exec_loop fuel re content lastIndex body acc
  = option_map (fun ms => fold_left (fun a m => body m a) ms acc)
      (exec_loop fuel re content lastIndex snoc_match []).
Proof.
  revert lastIndex acc. induction fuel as [|fuel IH]; intros li acc; simpl.
  - reflexivity.
  - destruct (exec re content li) as [[m|] li']; simpl; [|reflexivity].
    rewrite IH, (exec_loop_snoc fuel li' (snoc_match m [])).
    destruct (exec_loop fuel re content li' snoc_match []); reflexivity.
Qed.

Hypothesis re_global : global re = true.
Hypothesis re_progress : starts_with_a_character re.

(** The loop ends: every round moves [lastIndex] forward. *)
Lemma exec_loop_ends (fuel lastIndex : nat) :
  lastIndex <= length content ->
  length content - lastIndex < fuel ->
  exists ms,
    exec_loop fuel re content lastIndex snoc_match [] = Some ms /\
    StronglySorted lt (map index ms) /\
    Forall (fun m => lastIndex <= index m /\ is_match re content m) ms.
Proof.
  revert lastIndex. induction fuel as [|fuel IH]; intros li Hli Hfuel; [lia|].
  simpl. destruct (exec re content li) as [[m|] li'] eqn:E.
  - destruct (exec_global _ _ _ re_global E) as (Hi & Hle & Hm & _).
    pose proof (exec_progress _ _ re_global re_progress E) as Hp.
    rewrite exec_loop_snoc.
    destruct (IH li') as (ms & -> & Hs & Hall); [lia|lia|].
    simpl. eexists. split; [reflexivity|].
    split.
    + simpl. constructor; [assumption|].
      rewrite Forall_map. eapply Forall_impl; [|exact Hall].
      simpl. intros m' (Hm' & _). lia.
    + constructor; [split; [lia|assumption]|].
      eapply Forall_impl; [|exact Hall]. simpl. intros m' (Hm' & ?).
      split; [lia|assumption].
  - exists []. repeat constructor.
Qed.

Lemma matches_spec :
  exec_loop (S (length content)) re content 0 snoc_match []
    = Some (matches re content) /\
  StronglySorted lt (map index (matches re content)) /\
  Forall (is_match re content) (matches re content).
Proof.
  destruct (@exec_loop_ends (S (length content)) 0)
    as (ms & E & Hs & Hall); [lia|lia|].
  unfold matches. rewrite E. repeat split; [assumption|].
  eapply Forall_impl; [|exact Hall]. simpl. tauto.
Qed.
End ExecLoop.

Lemma mdRegex_progress : starts_with_a_character mdRegex.
Proof. unfold starts_with_a_character. simpl. eauto. Qed.

Lemma htmlRegex_progress : starts_with_a_character htmlRegex.
Proof. unfold starts_with_a_character. simpl. eauto. Qed.

Lemma md_body_app content filePath m images :
  md_body content filePath m images = images ++ md_body content filePath m [].
Proof.
  unfold md_body.
  destruct (_ || _); [now rewrite app_nil_r|].
  destruct (includes _ _); [reflexivity|now rewrite app_nil_r].
Qed.

Lemma html_body_app content filePath m images :
  html_body content filePath m images = images ++ html_body content filePath m [].
Proof.
  unfold html_body. destruct (startsWith _ _); [now rewrite app_nil_r|reflexivity].
Qed.

Lemma fold_body (A : Type) (body : MatchResult -> list A -> list A)
    (ms : list MatchResult) (acc : list A) :
  (forall m images, body m images = images ++ body m []) ->
  fold_left (fun a m => body m a) ms acc
  = acc ++ flat_map (fun m => body m []) ms.
Proof.
  intros Happ. revert acc. induction ms as [|m ms IH]; simpl; intros acc.
  - now rewrite app_nil_r.
  - rewrite IH, (Happ m acc), <- app_assoc. reflexivity.
Qed.

Lemma map_snd_tagged (A : Type) (push : MatchResult -> list A)
    (ms : list MatchResult) :
  map snd (flat_map (fun m => map (pair (index m)) (push m)) ms)
  = flat_map push ms.
Proof.
  induction ms as [|m ms IH]; simpl; [reflexivity|].
  rewrite map_app, IH, map_map. simpl. now rewrite map_id.
Qed.

(** The function returns, and what it returns is the references of the
    first loop followed by those of the second. *)
Lemma extractImageReferences_occurrences (content filePath : str) :
  extractImageReferences content filePath
  = Some (map snd (occurrences content filePath)).
Proof.
  unfold extractImageReferences, occurrences, md_occurrences, html_occurrences.
  rewrite map_app, !map_snd_tagged.
  rewrite (exec_loop_fold mdRegex content (md_body content filePath)).
  destruct (matches_spec content (re := mdRegex) eq_refl mdRegex_progress)
    as (-> & _ & _).
  simpl option_map. cbv iota beta.
  rewrite (exec_loop_fold htmlRegex content (html_body content filePath)).
  destruct (matches_spec content (re := htmlRegex) eq_refl htmlRegex_progress)
    as (-> & _ & _).
  simpl option_map.
  rewrite !fold_body by (intros; first [apply md_body_app|apply html_body_app]).
  reflexivity.
Qed.

(** ** Order of the extracted references *)

Lemma sorted_nth_lt (l : list nat) (a b x y : nat) :
  StronglySorted lt l ->
  nth_error l a = Some x -> nth_error l b = Some y -> a < b -> x < y.
Proof.
  intros Hs. revert a b. induction Hs as [|h l Hs IH Hall]; intros a b Ha Hb Hab.
  - destruct a; discriminate.
  - destruct b as [|b]; [lia|]. simpl in Hb. destruct a as [|a]; simpl in Ha.
    + injection Ha as <-. rewrite Forall_forall in Hall.
      apply Hall. eapply nth_error_In; eassumption.
    + apply (IH a b); [assumption|assumption|lia].
Qed.

Lemma sorted_in_document_order (occ : list (nat * ImageReference)) :
  StronglySorted lt (map fst occ) -> in_document_order occ.
Proof.
  intros Hs a b ia ra ib rb Ha Hb Hlt.
  destruct (Nat.lt_trichotomy a b) as [?|[->|Hba]]; [assumption| |].
  - rewrite Ha in Hb. injection Hb as -> _. lia.
  - assert (ib < ia); [|lia].
    apply (sorted_nth_lt (l := map fst occ) (a := b) (b := a)); try assumption.
    + now rewrite nth_error_map, Hb.
    + now rewrite nth_error_map, Ha.
Qed.

Lemma tagged_sorted (A : Type) (push : MatchResult -> list A)
    (ms : list MatchResult) :
  (forall m, length (push m) <= 1) ->
  StronglySorted lt (map index ms) ->
  StronglySorted lt
    (map fst (flat_map (fun m => map (pair (index m)) (push m)) ms)).
Proof.
  intros Hone. induction ms as [|m ms IH]; simpl; intros Hs; [constructor|].
  apply StronglySorted_inv in Hs as (Hs & Hall).
  specialize (IH Hs). specialize (Hone m).
  destruct (push m) as [|r [|r' rest]]; simpl in *; [assumption| |lia].
  constructor; [assumption|].
  apply Forall_forall. intros i Hi.
  apply in_map_iff in Hi as ((i' & r') & <- & Hi).
  apply in_flat_map in Hi as (m' & Hm' & Hi).
  apply in_map_iff in Hi as (? & [= <- <-] & _). simpl.
  rewrite Forall_forall in Hall. apply Hall. now apply in_map.
Qed.

Lemma md_body_one content filePath m : length (md_body content filePath m []) <= 1.
Proof.
  unfold md_body. destruct (_ || _); [simpl; lia|].
  destruct (includes _ _); simpl; lia.
Qed.

Lemma html_body_one content filePath m :
  length (html_body content filePath m []) <= 1.
Proof. unfold html_body. destruct (startsWith _ _); simpl; lia. Qed.

Lemma md_occurrences_sorted content filePath :
  StronglySorted lt (map fst (md_occurrences content filePath)).
Proof.
  apply tagged_sorted; [apply md_body_one|].
  apply (matches_spec content (re := mdRegex) eq_refl mdRegex_progress).
Qed.

Lemma html_occurrences_sorted content filePath :
  StronglySorted lt (map fst (html_occurrences content filePath)).
Proof.
  apply tagged_sorted; [apply html_body_one|].
  apply (matches_spec content (re := htmlRegex) eq_refl htmlRegex_progress).
Qed.

(** C2, as amended: the result holds the references of the markdown form
    first, then those of the tag form; within each form the references are
    in document order. *)
Theorem extraction_order_per_form (content filePath : str) :
  extractImageReferences content filePath
    = Some (map snd (md_occurrences content filePath)
            ++ map snd (html_occurrences content filePath)) /\
  StronglySorted lt (map fst (md_occurrences content filePath)) /\
  StronglySorted lt (map fst (html_occurrences content filePath)) /\
  in_document_order (md_occurrences content filePath) /\
  in_document_order (html_occurrences content filePath).
Proof.
  rewrite extractImageReferences_occurrences. unfold occurrences.
  rewrite map_app.
  pose proof (md_occurrences_sorted content filePath).
  pose proof (html_occurrences_sorted content filePath).
  repeat split; try assumption; now apply sorted_in_document_order.
Qed.

(** C2, the claim as stated fails: a tag at offset 0 followed by a markdown
    image at offset 22 comes out after the markdown image. *)
Lemma extraction_not_in_document_order :
  let content := txt "<img src='first.png'> ![second](second.png)" in
  let filePath := txt "doc.md" in
  extractImageReferences content filePath
    = Some (map snd (occurrences content filePath)) /\
  map (fun o => (fst o, Ref.path (snd o))) (occurrences content filePath)
    = [(22, txt "second.png"); (0, txt "first.png")] /\
  ~ in_document_order (occurrences content filePath).
Proof.
  intros content filePath.
  split; [apply extractImageReferences_occurrences|].
  split; [vm_compute; reflexivity|].
  intros H.
  assert (E : exists r1 r0, occurrences content filePath = [(22, r1); (0, r0)]).
  { vm_compute. eauto. }
  destruct E as (r1 & r0 & E). rewrite E in H.
  specialize (H 1 0 0 r0 22 r1 eq_refl eq_refl). lia.
Qed.

(** ** Line numbers and the fields of the references *)

Lemma split_length (sep : ascii) (x : str) :
  length (split sep x) = S (count_occ ascii_dec x sep).
Proof.
  induction x as [|c x IH]; simpl; [reflexivity|].
  destruct (Ascii.eqb c sep) eqn:E.
  - apply Ascii.eqb_eq in E. subst c.
    destruct (ascii_dec sep sep); [|congruence]. simpl. now rewrite IH.
  - destruct (ascii_dec c sep) as [->|_]; [now rewrite Ascii.eqb_refl in E|].
    destruct (split sep x); simpl in *; [discriminate|assumption].
Qed.

Lemma line_of_newlines (content : str) (m : MatchResult) :
  line_of content m = 1 + count_newlines (firstn (index m) content).
Proof.
  unfold line_of, substring, count_newlines.
  rewrite split_length, Nat.sub_0_r. reflexivity.
Qed.

Lemma In_tagged (A : Type) (push : MatchResult -> list A)
    (ms : list MatchResult) (i : nat) (r : A) :
  In (i, r) (flat_map (fun m => map (pair (index m)) (push m)) ms) ->
  exists m, In m ms /\ i = index m /\ In r (push m).
Proof.
  intros H. apply in_flat_map in H as (m & Hm & H).
  apply in_map_iff in H as (r' & [= <- <-] & Hr). eauto.
Qed.

Lemma md_body_fields content filePath m r :
  In r (md_body content filePath m []) ->
  r = {| Ref.alt := group m 1; Ref.path := group m 2;
         Ref.fullMatch := group m 0; Ref.sourceFile := filePath;
         Ref.lineNumber := line_of content m |}.
Proof.
  unfold md_body. destruct (_ || _); [intros []|].
  destruct (includes _ _); [|intros []].
  intros [<-|[]]. reflexivity.
Qed.

Lemma html_body_fields content filePath m r :
  In r (html_body content filePath m []) ->
  r = {| Ref.alt := []; Ref.path := group m 1;
         Ref.fullMatch := group m 0; Ref.sourceFile := filePath;
         Ref.lineNumber := line_of content m |}.
Proof.
  unfold html_body. destruct (startsWith _ _); [intros []|].
  intros [<-|[]]. reflexivity.
Qed.

Lemma is_match_text (re : RegExp) (content : str) (m : MatchResult) :
  is_match re content m ->
  firstn (length (group m 0)) (skipn (index m) content) = group m 0.
Proof.
  intros (e & caps & _ & Hb & Hg). unfold group. rewrite Hg. simpl.
  unfold substring. rewrite length_firstn, length_skipn.
  now rewrite Nat.min_l by lia.
Qed.

Lemma occurrence_inv content filePath i r :
  In (i, r) (occurrences content filePath) ->
  exists m, i = index m /\ Ref.fullMatch r = group m 0 /\
            Ref.lineNumber r = line_of content m /\
            (is_match mdRegex content m \/ is_match htmlRegex content m).
Proof.
  unfold occurrences. rewrite in_app_iff. intros [H|H].
  - apply In_tagged in H as (m & Hm & -> & Hr).
    apply md_body_fields in Hr. subst r. exists m. simpl.
    repeat split. left.
    pose proof (matches_spec content (re := mdRegex) eq_refl mdRegex_progress)
      as (_ & _ & Hall).
    rewrite Forall_forall in Hall. now apply Hall.
  - apply In_tagged in H as (m & Hm & -> & Hr).
    apply html_body_fields in Hr. subst r. exists m. simpl.
    repeat split. right.
    pose proof (matches_spec content (re := htmlRegex) eq_refl htmlRegex_progress)
      as (_ & _ & Hall).
    rewrite Forall_forall in Hall. now apply Hall.
Qed.

(** C5: a reference extracted at offset [i] of the text, in either form,
    has as line number 1 plus the number of newline characters among the
    first [i] characters; with no newline before it, its line number is 1. *)
Theorem line_number_counts_newlines (content filePath : str) (i : nat)
    (r : ImageReference) :
  In (i, r) (occurrences content filePath) ->
  firstn (length (Ref.fullMatch r)) (skipn i content) = Ref.fullMatch r /\
  Ref.lineNumber r = 1 + count_newlines (firstn i content) /\
  (~ In newline (firstn i content) -> Ref.lineNumber r = 1).
Proof.
  intros H. apply occurrence_inv in H as (m & -> & Hf & Hl & Hm).
  rewrite Hf, Hl, line_of_newlines. split.
  - destruct Hm as [Hm|Hm]; eapply is_match_text; eassumption.
  - split; [reflexivity|]. intros Hn. unfold count_newlines.
    now rewrite (proj1 (count_occ_not_In ascii_dec _ _) Hn).
Qed.

Lemma line_number_counts_newlines_witness :
  let content := txt "intro" ++ [newline]
                 ++ txt "![Cockpit](images/cockpit.png)" ++ [newline]
                 ++ txt "<img src='assets/logo.svg'>" in
  In (37, {| Ref.alt := []; Ref.path := txt "assets/logo.svg";
             Ref.fullMatch := txt "<img src='assets/logo.svg'>";
             Ref.sourceFile := txt "doc.md"; Ref.lineNumber := 3 |})
     (occurrences content (txt "doc.md")) /\
  3 = 1 + count_newlines (firstn 37 content).
Proof.
  intros content.
  assert (H : In (37, {| Ref.alt := []; Ref.path := txt "assets/logo.svg";
                         Ref.fullMatch := txt "<img src='assets/logo.svg'>";
                         Ref.sourceFile := txt "doc.md"; Ref.lineNumber := 3 |})
                 (occurrences content (txt "doc.md"))).
  { vm_compute. right. left. reflexivity. }
  split; [exact H|].
  exact (proj1 (proj2 (line_number_counts_newlines _ _ _ _ H))).
Defined.

(** C9: every reference of the tag form has an empty [alt], also when the
    tag has an [alt] attribute; a reference with a non-empty [alt] is one of
    the markdown form. *)
Theorem html_references_have_no_alt :
  (forall content filePath : str,
      extractImageReferences content filePath
        = Some (map snd (md_occurrences content filePath)
                ++ map snd (html_occurrences content filePath)) /\
      Forall (fun r => Ref.alt r = [])
             (map snd (html_occurrences content filePath)) /\
      (forall r, In r (map snd (occurrences content filePath)) ->
                 Ref.alt r <> [] ->
                 In r (map snd (md_occurrences content filePath)))) /\
  extractImageReferences (txt "<img alt='Logo' src='logo.png'>") (txt "doc.md")
    = Some [ {| Ref.alt := []; Ref.path := txt "logo.png";
                Ref.fullMatch := txt "<img alt='Logo' src='logo.png'>";
                Ref.sourceFile := txt "doc.md"; Ref.lineNumber := 1 |} ].
Proof.
  split; [|vm_compute; reflexivity].
  intros content filePath.
  assert (Hhtml : Forall (fun r => Ref.alt r = [])
                         (map snd (html_occurrences content filePath))).
  { apply Forall_forall. intros r Hr.
    apply in_map_iff in Hr as ((i & r') & <- & Hr). simpl.
    apply In_tagged in Hr as (m & _ & _ & Hr).
    apply html_body_fields in Hr. now subst r'. }
  split; [|split; [exact Hhtml|]].
  - rewrite extractImageReferences_occurrences. unfold occurrences.
    now rewrite map_app.
  - intros r Hr Halt. unfold occurrences in Hr.
    rewrite map_app, in_app_iff in Hr. destruct Hr as [Hr|Hr]; [assumption|].
    rewrite Forall_forall in Hhtml. now apply Hhtml in Hr.
Qed.

Lemma html_references_have_no_alt_witness :
  In {| Ref.alt := txt "Logo"; Ref.path := txt "logo.png";
        Ref.fullMatch := txt "![Logo](logo.png)";
        Ref.sourceFile := txt "doc.md"; Ref.lineNumber := 1 |}
     (map snd (md_occurrences (txt "![Logo](logo.png) <img alt='x' src='y'>")
                              (txt "doc.md"))).
Proof.
  apply (proj2 (proj2 (proj1 html_references_have_no_alt
                         (txt "![Logo](logo.png) <img alt='x' src='y'>")
                         (txt "doc.md")))).
  - vm_compute. left. reflexivity.
  - discriminate.
Defined.

(** C3: a tag whose path begins with "http" but with neither "http://" nor
    "https://" gives no reference, while the markdown form keeps the same
    path. *)
Theorem html_http_prefix_discarded :
  let imagePath := txt "http-flow.png" in
  let content := txt "<img src='http-flow.png'>" in
  startsWith imagePath (txt "http://") = false /\
  startsWith imagePath (txt "https://") = false /\
  map (fun m => group m 1) (matches htmlRegex content) = [imagePath] /\
  extractImageReferences content (txt "doc.md") = Some [] /\
  extractImageReferences (txt "![Flow](http-flow.png)") (txt "doc.md")
    = Some [ {| Ref.alt := txt "Flow"; Ref.path := imagePath;
                Ref.fullMatch := txt "![Flow](http-flow.png)";
                Ref.sourceFile := txt "doc.md"; Ref.lineNumber := 1 |} ].
Proof. vm_compute. repeat split. Qed.

(** ** The shape of a markdown match *)

Section RunSteps.
Variable ic : bool.

Lemma run_One a k x pos caps r :
  run ic (One a :: k) x pos caps = Some r ->
  exists c x', x = c :: x' /\ accepts ic a c = true /\
               run ic k x' (S pos) caps = Some r.
Proof.
  simpl. destruct x as [|c x']; [discriminate|].
  destruct (accepts ic a c) eqn:E; [|discriminate]. eauto.
Qed.

Lemma run_Star a k x pos caps r :
  run ic (Star a :: k) x pos caps = Some r ->
  exists taken rest, x = taken ++ rest /\
                     forallb (accepts ic a) taken = true /\
                     run ic k rest (pos + length taken) caps = Some r.
Proof.
  simpl. intros H. apply greedy_some in H as (n & Hn & Hall & H).
  exists (firstn n x), (skipn n x). rewrite firstn_skipn, length_firstn.
  rewrite Nat.min_l by assumption. auto.
Qed.

Lemma run_Plus a k x pos caps r :
  run ic (Plus a :: k) x pos caps = Some r ->
  exists c taken rest, x = c :: taken ++ rest /\
                       forallb (accepts ic a) (c :: taken) = true /\
                       run ic k rest (pos + length (c :: taken)) caps = Some r.
Proof.
  simpl. destruct x as [|c x']; [discriminate|].
  destruct (accepts ic a c) eqn:E; [|discriminate].
  intros H. apply greedy_some in H as (n & Hn & Hall & H).
  exists c, (firstn n x'), (skipn n x'). rewrite firstn_skipn. simpl.
  rewrite length_firstn, Nat.min_l by assumption.
  rewrite E, Hall. replace (pos + S n) with (S pos + n) by lia. auto.
Qed.
End RunSteps.

Lemma accepts_Chr (c x : ascii) : accepts false (Chr c) x = true -> x = c.
Proof. simpl. intros H. now apply Ascii.eqb_eq in H. Qed.

Lemma accepts_NoneOf1 (c : ascii) (l : str) :
  forallb (accepts false (NoneOf [c])) l = true -> ~ In c l.
Proof.
  rewrite forallb_forall. intros H Hin. apply H in Hin. simpl in Hin.
  now rewrite Ascii.eqb_refl in Hin.
Qed.

Lemma md_run_shape (x : str) (pos e : nat) (caps : list nat) :
  run false (nodes mdRegex) x pos [] = Some (e, caps) ->
  exists altText p rest,
    x = txt "![" ++ altText ++ txt "](" ++ p ++ txt ")" ++ rest /\
    ~ In "]"%char altText /\ ~ In ")"%char p /\ p <> [] /\
    e = pos + 5 + length altText + length p /\
    caps = [ pos + 2; pos + 2 + length altText;
             pos + 4 + length altText; pos + 4 + length altText + length p ].
Proof.
  unfold mdRegex, nodes. intros H.
  apply run_One in H as (c1 & x1 & -> & A1 & H). apply accepts_Chr in A1 as ->.
  apply run_One in H as (c2 & x2 & -> & A2 & H). apply accepts_Chr in A2 as ->.
  change (run false (Open :: ?k) ?x ?p ?c) with (run false k x p (c ++ [p])) in H.
  apply run_Star in H as (altText & x3 & -> & Aalt & H).
  change (run false (Close :: ?k) ?x ?p ?c) with (run false k x p (c ++ [p])) in H.
  apply run_One in H as (c4 & x4 & -> & A4 & H). apply accepts_Chr in A4 as ->.
  apply run_One in H as (c5 & x5 & -> & A5 & H). apply accepts_Chr in A5 as ->.
  change (run false (Open :: ?k) ?x ?p ?c) with (run false k x p (c ++ [p])) in H.
  apply run_Plus in H as (c6 & p' & x6 & -> & Ap & H).
  change (run false (Close :: ?k) ?x ?p ?c) with (run false k x p (c ++ [p])) in H.
  apply run_One in H as (c7 & x7 & -> & A7 & H). apply accepts_Chr in A7 as ->.
  simpl in H. injection H as <- <-.
  exists altText, (c6 :: p'), x7. simpl.
  repeat split.
  - now apply accepts_NoneOf1.
  - exact (accepts_NoneOf1 _ _ Ap).
  - discriminate.
  - lia.
  - repeat f_equal; lia.
Qed.

Lemma substring_middle (pre mid post content : str) (i : nat) :
  skipn i content = pre ++ mid ++ post ->
  substring content (i + length pre) (i + length pre + length mid) = mid.
Proof.
  intros H. unfold substring.
  replace (i + length pre + length mid - (i + length pre)) with (length mid) by lia.
  rewrite Nat.add_comm, <- skipn_skipn, H.
  rewrite skipn_app, skipn_all, Nat.sub_diag. simpl.
  rewrite firstn_app, firstn_all, Nat.sub_diag. simpl. apply app_nil_r.
Qed.

Lemma md_match_shape (content : str) (m : MatchResult) :
  is_match mdRegex content m ->
  exists altText p rest,
    skipn (index m) content
      = txt "![" ++ altText ++ txt "](" ++ p ++ txt ")" ++ rest /\
    ~ In "]"%char altText /\ ~ In ")"%char p /\ p <> [] /\
    groups m = [ txt "![" ++ altText ++ txt "](" ++ p ++ txt ")"; altText; p ].
Proof.
  intros (e & caps & R & Hb & Hg).
  apply md_run_shape in R as (altText & p & rest & Hx & Ha & Hp & Hne & -> & ->).
  exists altText, p, rest. repeat split; try assumption.
  rewrite Hg. unfold group_texts.
  f_equal; [|f_equal; [|f_equal]].
  - replace (index m + 5 + length altText + length p)
      with (index m + length (@nil ascii)
            + length (txt "![" ++ altText ++ txt "](" ++ p ++ txt ")"))
      by (rewrite !length_app; simpl; lia).
    replace (index m) with (index m + length (@nil ascii)) at 1 by (simpl; lia).
    apply substring_middle with (post := rest). rewrite Hx. simpl.
    repeat (rewrite <- app_assoc; simpl). reflexivity.
  - replace (index m + 2) with (index m + length (txt "![")) by reflexivity.
    now apply substring_middle with (post := txt "](" ++ p ++ txt ")" ++ rest).
  - replace (index m + 4 + length altText)
      with (index m + length (txt "![" ++ altText ++ txt "]("))
      by (rewrite !length_app; simpl; lia).
    apply substring_middle with (post := txt ")" ++ rest). rewrite Hx. simpl.
    repeat (rewrite <- app_assoc; simpl). reflexivity.
Qed.



Lemma greedy_is_some_here (R : Type) (p : ascii -> bool)
    (k : str -> nat -> option R) (x : str) (pos : nat) :
  is_some (k x pos) = true -> is_some (greedy p k x pos) = true.
Proof.
  intros H. destruct x as [|c x]; simpl; [assumption|].
  destruct (p c); [|assumption].
  destruct (greedy p k x (S pos)); [reflexivity|assumption].
Qed.

Lemma greedy_is_some (R : Type) (p : ascii -> bool)
    (k : str -> nat -> option R) (taken rest : str) (pos : nat) :
  forallb p taken = true ->
  is_some (k rest (pos + length taken)) = true ->
  is_some (greedy p k (taken ++ rest) pos) = true.
Proof.
  revert pos. induction taken as [|c taken IH]; simpl; intros pos Hall H.
  - rewrite Nat.add_0_r in H. now apply greedy_is_some_here.
  - apply andb_prop in Hall as (Hc & Hall). rewrite Hc.
    rewrite <- Nat.add_succ_comm in H. specialize (IH (S pos) Hall H).
    destruct (greedy p k (taken ++ rest) (S pos)); [reflexivity|discriminate].
Qed.

Lemma NoneOf1_accepts (c : ascii) (l : str) :
  ~ In c l -> forallb (accepts false (NoneOf [c])) l = true.
Proof.
  intros H. apply forallb_forall. intros x Hx. simpl.
  destruct (Ascii.eqb c x) eqn:E; [|reflexivity].
  apply Ascii.eqb_eq in E. now subst x.
Qed.

Lemma accepts_Chr_refl (c : ascii) : accepts false (Chr c) c = true.
Proof. simpl. apply Ascii.eqb_refl. Qed.

Lemma md_run_construct (altText p rest : str) (pos : nat) :
  ~ In "]"%char altText -> ~ In ")"%char p -> p <> [] ->
  is_some (run false (nodes mdRegex)
             (txt "![" ++ altText ++ txt "](" ++ p ++ txt ")" ++ rest) pos [])
  = true.
Proof.
  intros Ha Hp Hne. destruct p as [|c p]; [congruence|].
  unfold mdRegex. cbn [nodes txt list_ascii_of_string app run].
  rewrite !accepts_Chr_refl.
  apply greedy_is_some; [now apply NoneOf1_accepts|].
  cbn [txt list_ascii_of_string app run]. rewrite !accepts_Chr_refl.
  pose proof (NoneOf1_accepts _ _ Hp) as Hall.
  cbn [forallb] in Hall. apply andb_prop in Hall as (Hc & Hall).
  rewrite Hc.
  apply greedy_is_some; [assumption|].
  cbn [run]. rewrite accepts_Chr_refl. reflexivity.
Qed.

Lemma search_skip (ch : ascii) (k : list node) (pre x : str) (pos : nat) :
  ~ In ch pre ->
  search false (One (Chr ch) :: k) (pre ++ x) pos
  = search false (One (Chr ch) :: k) x (pos + length pre).
Proof.
  revert pos. induction pre as [|c pre IH]; intros pos Hn.
  - cbn [app length]. now rewrite Nat.add_0_r.
  - cbn [app length search run accepts same_char].
    destruct (Ascii.eqb ch c) eqn:E.
    + apply Ascii.eqb_eq in E. exfalso. apply Hn. now left.
    + rewrite IH by (intros H; apply Hn; now right).
      now rewrite Nat.add_succ_comm.
Qed.

Lemma search_here (ic : bool) (prog : list node) (x : str) (pos : nat) :
  is_some (run ic prog x pos []) = true ->
  exists e caps, search ic prog x pos = Some (pos, e, caps).
Proof.
  intros H. destruct x as [|c x]; cbn [search];
    destruct (run ic prog _ pos []) as [[e caps]|]; try discriminate; eauto.
Qed.

Lemma split_unique (c : ascii) (a a' x x' : str) :
  ~ In c a -> ~ In c a' -> a ++ c :: x = a' ++ c :: x' -> a = a' /\ x = x'.
Proof.
  revert a'. induction a as [|h a IH]; intros [|h' a'] Ha Ha' E; simpl in *.
  - injection E as ->. auto.
  - injection E as <- _. tauto.
  - injection E as -> _. tauto.
  - injection E as -> E. destruct (IH a') as (-> & ->); auto.
Qed.

Lemma md_first_construct (pre altText p rest : str) :
  ~ In "!"%char pre -> ~ In "]"%char altText -> ~ In ")"%char p -> p <> [] ->
  exists ms,
    matches mdRegex
      (pre ++ txt "![" ++ altText ++ txt "](" ++ p ++ txt ")" ++ rest)
    = {| index := length pre;
         groups := [ txt "![" ++ altText ++ txt "](" ++ p ++ txt ")";
                     altText; p ] |} :: ms.
Proof.
  intros Hpre Ha Hp Hne.
  set (content := pre ++ txt "![" ++ altText ++ txt "](" ++ p ++ txt ")" ++ rest).
  pose proof (@md_run_construct altText p rest (length pre) Ha Hp Hne) as R.
  destruct (exec mdRegex content 0) as [om li'] eqn:E.
  assert (Hm : exists m, om = Some m /\ index m = length pre).
  { unfold exec in E. cbn [global mdRegex ignoreCase] in E.
    replace (length content <? 0) with false in E
      by (symmetry; apply Nat.ltb_ge; lia).
    cbn [skipn] in E. unfold content in E.
    unfold mdRegex in E at 1. cbn [nodes] in E.
    rewrite search_skip in E by assumption.
    cbn [Nat.add] in E.
    apply search_here in R as (e & caps & R).
    unfold mdRegex in R. cbn [nodes] in R. rewrite R in E.
    injection E as <- <-. eauto. }
  destruct Hm as (m & -> & Hi).
  destruct (exec_global mdRegex _ _ eq_refl E) as (_ & Hle & Hmatch & _).
  pose proof (@exec_progress mdRegex content 0 m li' eq_refl mdRegex_progress E) as Hprog.
  destruct (@exec_loop_ends mdRegex content eq_refl mdRegex_progress
              (length content) li') as (ms & L & _ & _); [lia|lia|].
  exists ms. unfold matches. cbn [exec_loop]. rewrite E, exec_loop_snoc, L.
  cbn [option_map snoc_match app]. f_equal.
  destruct (md_match_shape Hmatch) as (a' & p' & rest' & Hx & Ha' & Hp' & _ & Hg).
  rewrite Hi in Hx. unfold content in Hx.
  rewrite skipn_app, skipn_all, Nat.sub_diag in Hx. simpl in Hx.
  injection Hx as Hx.
  apply split_unique in Hx as (<- & Hx); try assumption.
  injection Hx as Hx.
  apply split_unique in Hx as (<- & _); try assumption.
  destruct m as [i g]. simpl in *. now subst.
Qed.

Lemma filter_none (A : Type) (f : A -> bool) (l : list A) :
  (forall x, In x l -> f x = false) -> filter f l = [].
Proof.
  induction l as [|x l IH]; intros H; [reflexivity|]. cbn [filter].
  rewrite (H x (or_introl eq_refl)). apply IH. intros y Hy. apply H. now right.
Qed.


(** ** Literal patterns *)

Lemma In_all_chars (c : ascii) : In c all_chars.
Proof.
  unfold all_chars. rewrite <- (ascii_nat_embedding c).
  apply in_map, in_seq. pose proof (nat_ascii_bounded c). lia.
Qed.

(** On a lower-cased code unit, the comparison of the [i] flag with a
    pattern character is plain equality. *)
Lemma pattern_char_lower (a c : ascii) :
  is_pattern_char a = true ->
  same_char true a (lowerChar c) = Ascii.eqb (lowerChar c) a.
Proof.
  assert (H : forallb (fun a => forallb (fun c =>
                implb (is_pattern_char a)
                      (Bool.eqb (same_char true a (lowerChar c))
                                (Ascii.eqb (lowerChar c) a)))
                all_chars) all_chars = true) by (vm_compute; reflexivity).
  rewrite forallb_forall in H. specialize (H a (In_all_chars a)).
  rewrite forallb_forall in H. specialize (H c (In_all_chars c)).
  intros Ha. rewrite Ha in H. simpl in H. now apply Bool.eqb_prop in H.
Qed.

Lemma run_literal_lower (word x : str) (pos : nat) (caps : list nat) :
  forallb is_pattern_char word = true ->
  is_some (run true (literal word) (toLowerCase x) pos caps) = true <->
  exists mid post, x = mid ++ post /\ toLowerCase mid = word.
Proof.
  revert x pos. induction word as [|a word IH]; intros x pos Hw.
  - simpl. split; [|reflexivity]. intros _. exists [], x. auto.
  - simpl in Hw. apply andb_prop in Hw as (Ha & Hw).
    destruct x as [|c x]; unfold literal, toLowerCase; cbn [map run accepts];
      fold (literal word).
    + split; [discriminate|]. intros (mid & post & E & L).
      destruct mid; [discriminate|discriminate].
    + fold (toLowerCase x). rewrite (pattern_char_lower _ c Ha).
      destruct (Ascii.eqb (lowerChar c) a) eqn:E.
      * apply Ascii.eqb_eq in E. rewrite (IH x (S pos) Hw). split.
        -- intros (mid & post & -> & <-). exists (c :: mid), post.
           simpl. now rewrite E.
        -- intros (mid & post & Hx & L).
           destruct mid as [|c' mid]; [discriminate|].
           simpl in Hx, L. injection Hx as <- ->. injection L as _ <-.
           eauto.
      * split; [discriminate|]. intros (mid & post & Hx & L).
        destruct mid as [|c' mid]; [discriminate|].
        simpl in Hx, L. injection Hx as <- ->. injection L as L _.
        rewrite L, Ascii.eqb_refl in E. discriminate.
Qed.

Lemma search_is_some (ic : bool) (prog : list node) (x : str) (pos : nat) :
  is_some (search ic prog x pos) = true <->
  exists pre rest, x = pre ++ rest /\
                   is_some (run ic prog rest (pos + length pre) []) = true.
Proof.
  revert pos. induction x as [|c x IH]; simpl; intros pos.
  - destruct (run ic prog [] pos []) as [[e caps]|] eqn:R; simpl.
    + split; [|reflexivity]. intros _. exists [], []. simpl.
      now rewrite Nat.add_0_r, R.
    + split; [discriminate|]. intros (pre & rest & E & H).
      symmetry in E. apply app_eq_nil in E as (-> & ->). simpl in H.
      now rewrite Nat.add_0_r, R in H.
  - destruct (run ic prog (c :: x) pos []) as [[e caps]|] eqn:R; simpl.
    + split; [|reflexivity]. intros _. exists [], (c :: x). simpl.
      now rewrite Nat.add_0_r, R.
    + rewrite IH. split.
      * intros (pre & rest & -> & H). exists (c :: pre), rest. simpl.
        now rewrite Nat.add_succ_r.
      * intros (pre & rest & E & H). destruct pre as [|c' pre]; simpl in *.
        -- subst rest. now rewrite Nat.add_0_r, R in H.
        -- injection E as <- ->. exists pre, rest.
           now rewrite Nat.add_succ_r in H.
Qed.

Lemma plain_literal_nodes (re : RegExp) :
  is_plain_literal re = true ->
  ignoreCase re = true /\ global re = false /\
  nodes re = literal (word_of re) /\
  forallb is_pattern_char (word_of re) = true.
Proof.
  unfold is_plain_literal, word_of, literal.
  intros H. apply andb_prop in H as (H & Hn). apply andb_prop in H as (-> & Hg).
  apply negb_true_iff in Hg. rewrite Hg. repeat split.
  - induction (nodes re) as [|n ns IH]; simpl in *; [reflexivity|].
    apply andb_prop in Hn as (Hc & Hn). destruct n as [[c| |]| | | |]; try discriminate.
    simpl. now rewrite <- IH.
  - induction (nodes re) as [|n ns IH]; simpl in *; [reflexivity|].
    apply andb_prop in Hn as (Hc & Hn). destruct n as [[c| |]| | | |]; try discriminate.
    simpl. now rewrite Hc, IH.
Qed.

(** A literal pattern tested against the lower-cased path finds its word in
    the path, letter case ignored; the test leaves the pattern as it was. *)
Lemma test_plain_literal (re : RegExp) (imagePath : str) :
  is_plain_literal re = true ->
  pattern_matches imagePath re <-> contains_ignoring_case (word_of re) imagePath.
Proof.
  intros H. apply plain_literal_nodes in H as (Hi & Hg & Hn & Hw).
  unfold pattern_matches, test, exec. rewrite Hg, Hi, Hn. simpl skipn.
  replace (length (toLowerCase imagePath) <? 0) with false
    by (symmetry; apply Nat.ltb_ge; lia).
  set (s := search true (literal (word_of re)) (toLowerCase imagePath) 0).
  assert (E : (match fst match s with
                          | Some (i, e, caps) =>
                              (Some {| index := i;
                                       groups := substring (toLowerCase imagePath) i e
                                                 :: group_texts (toLowerCase imagePath) caps |},
                               0)
                          | None => (None, 0)
                          end with Some _ => true | None => false end)
              = is_some s).
  { destruct s as [[[i e] caps]|]; reflexivity. }
  rewrite E. unfold s. rewrite search_is_some. unfold contains_ignoring_case.
  split.
  - intros (pre & rest & Hx & R).
    unfold toLowerCase in Hx. apply map_eq_app in Hx as (pre' & rest' & -> & <- & <-).
    apply (proj1 (@run_literal_lower _ _ _ _ Hw)) in R as (mid & post & -> & L).
    exists pre', mid, post. auto.
  - intros (pre & mid & post & -> & L).
    exists (toLowerCase pre), (toLowerCase (mid ++ post)).
    split; [unfold toLowerCase; now rewrite map_app|].
    apply (proj2 (@run_literal_lower _ _ _ _ Hw)). eauto.
Qed.

Lemma plain_literal_stateless (re : RegExp) (x : str) (lastIndex : nat) :
  is_plain_literal re = true ->
  exec re x lastIndex = (fst (exec re x 0), lastIndex).
Proof.
  intros H. apply plain_literal_nodes in H as (_ & Hg & _ & _).
  unfold exec. rewrite Hg.
  destruct (length x <? 0); [reflexivity|].
  destruct (search _ _ _ _) as [[[i e] caps]|]; reflexivity.
Qed.

(** ** Categories and the replacement flag *)

Lemma some_pattern_matches_iff (imagePath : str) (config : CategoryConfig) :
  some_pattern_matches (toLowerCase imagePath) (patterns config) = true <->
  category_matches imagePath config.
Proof.
  unfold category_matches, pattern_matches.
  induction (patterns config) as [|pattern pats IH]; simpl.
  - split; [discriminate|]. intros (? & [] & _).
  - destruct (test pattern (toLowerCase imagePath)) eqn:T.
    + split; [|reflexivity]. intros _. exists pattern. auto.
    + rewrite IH. split.
      * intros (q & Hq & Hm). exists q. auto.
      * intros (q & [<-|Hq] & Hm); [congruence|]. exists q. auto.
Qed.

Lemma first_category_spec (imagePath : str)
    (entries : list (Category * CategoryConfig)) :
  match first_category (toLowerCase imagePath) entries with
  | Some c =>
      exists before config after,
        entries = before ++ (c, config) :: after /\
        category_matches imagePath config /\
        Forall (fun e => ~ category_matches imagePath (snd e)) before
  | None => Forall (fun e => ~ category_matches imagePath (snd e)) entries
  end.
Proof.
  induction entries as [|[c config] entries IH]; simpl; [constructor|].
  destruct (some_pattern_matches (toLowerCase imagePath) (patterns config)) eqn:M.
  - exists [], config, entries. repeat split; [|constructor].
    now apply some_pattern_matches_iff.
  - assert (Hno : ~ category_matches imagePath config).
    { intros H. apply some_pattern_matches_iff in H. congruence. }
    destruct (first_category (toLowerCase imagePath) entries) as [c'|].
    + destruct IH as (before & config' & after & -> & Hm & Hb).
      exists ((c, config) :: before), config', after.
      repeat split; [assumption|]. now constructor.
    + now constructor.
Qed.

Lemma category_patterns_plain :
  Forall (fun e => forallb is_plain_literal (patterns (snd e)) = true) CATEGORIES.
Proof. repeat constructor. Qed.

Lemma camunda_patterns_plain : forallb is_plain_literal CAMUNDA_PATTERNS = true.
Proof. reflexivity. Qed.

(** C6: the categorizer returns, for every path, the first category of the
    fixed list cockpit, tasklist, admin, welcome, modeler that has a matching
    pattern, and the catch-all category when no pattern of any category
    matches; a pattern matches when its word occurs in the path, letter case
    ignored; a test leaves the pattern unchanged, so that a second run on the
    same path gives the same category. *)
Theorem categorize_first_match (imagePath : str) :
  map fst CATEGORIES = [cockpit; tasklist; admin; welcome; modeler; other] /\
  (exists c,
      categorizeScreenshot imagePath = c /\
      ((exists before config after,
           CATEGORIES = before ++ (c, config) :: after /\
           category_matches imagePath config /\
           Forall (fun e => ~ category_matches imagePath (snd e)) before) \/
       (c = other /\
        Forall (fun e => ~ category_matches imagePath (snd e)) CATEGORIES))) /\
  (forall e pattern,
      In e CATEGORIES -> In pattern (patterns (snd e)) ->
      (pattern_matches imagePath pattern <->
       contains_ignoring_case (word_of pattern) imagePath) /\
      (forall x lastIndex,
          exec pattern x lastIndex = (fst (exec pattern x 0), lastIndex))) /\
  (forall c1 c2,
      categorizeScreenshot imagePath = c1 ->
      categorizeScreenshot imagePath = c2 -> c1 = c2).
Proof.
  split; [reflexivity|]. split; [|split].
  - exists (categorizeScreenshot imagePath). split; [reflexivity|].
    unfold categorizeScreenshot.
    pose proof (first_category_spec imagePath CATEGORIES) as H.
    destruct (first_category (toLowerCase imagePath) CATEGORIES) as [c|].
    + now left.
    + right. now split.
  - intros e pattern He Hp.
    pose proof category_patterns_plain as H. rewrite Forall_forall in H.
    specialize (H e He). rewrite forallb_forall in H. specialize (H pattern Hp).
    split; [now apply test_plain_literal|].
    intros x lastIndex. now apply plain_literal_stateless.
  - intros c1 c2 <- <-. reflexivity.
Qed.

Lemma categorize_first_match_witness :
  categorizeScreenshot (txt "assets/Welcome-banner.jpg") = welcome /\
  contains_ignoring_case (txt "welcome") (txt "assets/Welcome-banner.jpg").
Proof.
  split; [reflexivity|].
  destruct (categorize_first_match (txt "assets/Welcome-banner.jpg"))
    as (_ & _ & H & _).
  apply (H (welcome, {| patterns := [lit_i "welcome"; lit_i "profile"];
                        description := "Welcome page screenshots" |})
           (lit_i "welcome")).
  - simpl. tauto.
  - simpl. tauto.
  - reflexivity.
Defined.

(** C7: the flag of a path is true exactly when the word of one of the
    legacy-branding patterns occurs in the path, letter case ignored; it is
    computed from the path alone, whatever the category, and the path
    images/cockpit-dashboard.png is flagged. *)
Theorem flag_iff_legacy_pattern :
  (forall imagePath : str,
      isCamundaSpecific imagePath = true <->
      exists pattern, In pattern CAMUNDA_PATTERNS /\
                      contains_ignoring_case (word_of pattern) imagePath) /\
  map word_of CAMUNDA_PATTERNS
    = [ txt "camunda"; txt "cockpit"; txt "tasklist"; txt "admin-";
        txt "webapp"; txt "dashboard"; txt "process-definition";
        txt "process-instance"; txt "decision-"; txt "task-"; txt "filter-";
        txt "batch"; txt "migration"; txt "cleanup" ] /\
  (forall i : ImageReference,
      Image.needsReplacement (classify i) = isCamundaSpecific (Ref.path i)) /\
  isCamundaSpecific (txt "images/cockpit-dashboard.png") = true /\
  (categorizeScreenshot (txt "user.png") = admin /\
   isCamundaSpecific (txt "user.png") = false) /\
  (categorizeScreenshot (txt "admin-user.png") = admin /\
   isCamundaSpecific (txt "admin-user.png") = true) /\
  (categorizeScreenshot (txt "cleanup.png") = other /\
   isCamundaSpecific (txt "cleanup.png") = true).
Proof.
  split; [|split; [reflexivity|split; [reflexivity|vm_compute; repeat split]]].
  intros imagePath. unfold isCamundaSpecific. rewrite existsb_exists.
  pose proof camunda_patterns_plain as P. rewrite forallb_forall in P.
  split; intros (pattern & Hin & H); exists pattern; (split; [assumption|]).
  - apply test_plain_literal; [now apply P|exact H].
  - apply test_plain_literal; [now apply P|exact H].
Qed.

Lemma flag_iff_legacy_pattern_witness :
  isCamundaSpecific (txt "img/Task-List.PNG") = true.
Proof.
  apply (proj1 flag_iff_legacy_pattern (txt "img/Task-List.PNG")).
  exists (lit_i "task-"). split.
  - simpl. tauto.
  - exists (txt "img/"), (txt "Task-"), (txt "List.PNG"). split; reflexivity.
Defined.

(** ** The scenarios of the specification *)

Example scenario_cockpit_dashboard :
  option_map (map classify)
    (extractImageReferences
       (txt "![Cockpit Dashboard](images/cockpit-dashboard.png)") (txt "doc.md"))
  = Some [ {| Image.alt := txt "Cockpit Dashboard";
              Image.path := txt "images/cockpit-dashboard.png";
              Image.fullMatch :=
                txt "![Cockpit Dashboard](images/cockpit-dashboard.png)";
              Image.sourceFile := txt "doc.md";
              Image.lineNumber := 1;
              Image.category := cockpit;
              Image.needsReplacement := true |} ].
Proof. vm_compute. reflexivity. Qed.

Example scenario_external :
  extractImageReferences (txt "![External](https://example.com/foo.png)")
    (txt "doc.md") = Some [].
Proof. vm_compute. reflexivity. Qed.

Example scenario_welcome_banner :
  let content := txt "<img src=" ++ [dquote] ++ txt "assets/welcome-banner.jpg"
                 ++ [dquote] ++ txt ">" in
  analyzeFile (files_of [(txt "doc.md", content)]) (txt "doc.md")
  = Fulfilled [ {| Image.alt := [];
                   Image.path := txt "assets/welcome-banner.jpg";
                   Image.fullMatch := content;
                   Image.sourceFile := txt "doc.md";
                   Image.lineNumber := 1;
                   Image.category := welcome;
                   Image.needsReplacement := false |} ].
Proof. vm_compute. reflexivity. Qed.

Example scenario_pdf :
  extractImageReferences (txt "![Report](report.pdf)") (txt "doc.md") = Some [].
Proof. vm_compute. reflexivity. Qed.

Example scenario_no_documents :
  (forall fs, analyzeFiles fs [] [] = Fulfilled []) /\
  generateReport []
  = Some {| Report.summary :=
              {| Summary.total := 0; Summary.needsReplacement := 0;
                 Summary.byCategory := [] |};
            Report.byCategory := [];
            Report.replacementPlan := [] |}.
Proof. split; reflexivity. Qed.

Example extname_examples :
  extname (txt "index.html") = txt ".html" /\
  extname (txt "index.coffee.md") = txt ".md" /\
  extname (txt "index.") = txt "." /\
  extname (txt "index") = [] /\
  extname (txt ".index") = [] /\
  extname (txt ".index.md") = txt ".md" /\
  extname (txt "img.v2/logo") = [] /\
  extname (txt "img/logo.png/") = txt ".png".
Proof. vm_compute. repeat split. Qed.

Lemma replacement_plan_by_path_witness :
  analyzeFiles (files_of two_documents) [txt "a.md"; txt "b.md"] []
    = Fulfilled two_documents_images /\
  exists report,
    generateReport two_documents_images = Some report /\
    Report.replacementPlan report
    = [ {| Entry.imagePath := txt "images/admin-users.png";
           Entry.category := admin;
           Entry.referencedIn :=
             [ {| Location.file := txt "a.md"; Location.line := 1 |};
               {| Location.file := txt "b.md"; Location.line := 1 |} ] |} ].
Proof.
  split; [vm_compute; reflexivity|].
  apply (proj2 replacement_plan_by_path
           (nth 0 two_documents_images (classify (Ref.Build_t [] [] [] [] 0)))
           (nth 1 two_documents_images (classify (Ref.Build_t [] [] [] [] 0)))
           eq_refl eq_refl eq_refl).
Defined.


(** ** The scan of a pattern over a text *)

Lemma search_leftmost (ic : bool) (prog : list node) (x : str) (pos : nat) :
  match search ic prog x pos with
  | Some (i, _, _) =>
      forall j, pos <= j < i -> run ic prog (skipn (j - pos) x) j [] = None
  | None =>
      forall j, pos <= j <= pos + length x ->
                run ic prog (skipn (j - pos) x) j [] = None
  end.
Proof.
  revert pos. induction x as [|c x IH]; intros pos; cbn [search].
  - destruct (run ic prog [] pos []) as [[e caps]|] eqn:R.
    + intros j Hj. lia.
    + intros j Hj. simpl in Hj. replace j with pos by lia.
      now rewrite Nat.sub_diag.
  - destruct (run ic prog (c :: x) pos []) as [[e caps]|] eqn:R.
    + intros j Hj. lia.
    + specialize (IH (S pos)).
      destruct (search ic prog x (S pos)) as [[[i e] caps]|].
      * intros j Hj. destruct (Nat.eq_dec j pos) as [->|Hne].
        -- now rewrite Nat.sub_diag.
        -- replace (j - pos) with (S (j - S pos)) by lia. apply IH. lia.
      * intros j Hj. destruct (Nat.eq_dec j pos) as [->|Hne].
        -- now rewrite Nat.sub_diag.
        -- replace (j - pos) with (S (j - S pos)) by lia. apply IH.
           simpl in Hj. lia.
Qed.

Lemma exec_leftmost (re : RegExp) (content : str) (lastIndex : nat) :
  global re = true -> lastIndex <= length content ->
  match exec re content lastIndex with
  | (Some m, _) =>
      forall j, lastIndex <= j < index m -> no_match_at re content j
  | (None, _) =>
      forall j, lastIndex <= j <= length content -> no_match_at re content j
  end.
Proof.
  intros G Hle. unfold exec, no_match_at. rewrite G.
  replace (length content <? lastIndex) with false
    by (symmetry; apply Nat.ltb_ge; lia).
  pose proof (search_leftmost (ignoreCase re) (nodes re)
                (skipn lastIndex content) lastIndex) as H.
  destruct (search _ _ _ _) as [[[i e] caps]|]; simpl.
  - intros j Hj. specialize (H j Hj). rewrite skipn_skipn in H.
    now replace (j - lastIndex + lastIndex) with j in H by lia.
  - intros j Hj. rewrite length_skipn in H.
    specialize (H j ltac:(lia)). rewrite skipn_skipn in H.
    now replace (j - lastIndex + lastIndex) with j in H by lia.
Qed.

Lemma exec_span_end (re : RegExp) (content : str) (lastIndex : nat)
    (m : MatchResult) (lastIndex' : nat) :
  global re = true ->
  exec re content lastIndex = (Some m, lastIndex') ->
  span_end m = lastIndex'.
Proof.
  intros G E. destruct (@exec_global re content lastIndex m lastIndex' G E)
    as (Hi & Hle & _ & Hg).
  unfold span_end. rewrite Hg. unfold substring.
  rewrite length_firstn, length_skipn. lia.
Qed.

Lemma exec_loop_scanned (re : RegExp) (content : str) (fuel lastIndex : nat)
    (ms : list MatchResult) :
  global re = true -> starts_with_a_character re ->
  lastIndex <= length content ->
  exec_loop fuel re content lastIndex snoc_match [] = Some ms ->
  scanned re content lastIndex ms.
Proof.
  intros G P. revert lastIndex ms.
  induction fuel as [|fuel IH]; intros li ms Hle H; [discriminate|].
  cbn [exec_loop] in H.
  pose proof (@exec_leftmost re content li G Hle) as Hleft.
  destruct (exec re content li) as [[m|] li'] eqn:E.
  - rewrite exec_loop_snoc in H.
    destruct (exec_loop fuel re content li' snoc_match []) as [ms'|] eqn:L;
      [|discriminate].
    injection H as <-.
    destruct (@exec_global re content li m li' G E) as (Hi & Hle' & _ & _).
    pose proof (@exec_progress re content li m li' G P E) as Hp.
    pose proof (@exec_span_end re content li m li' G E) as Hs.
    cbn [snoc_match app scanned]. rewrite Hs.
    repeat split; try lia; [assumption|]. now apply IH.
  - injection H as <-. exact Hleft.
Qed.

Lemma matches_scanned (re : RegExp) (content : str) :
  global re = true -> starts_with_a_character re ->
  scanned re content 0 (matches re content).
Proof.
  intros G P.
  destruct (@matches_spec re content G P) as (E & _ & _).
  eapply exec_loop_scanned; try eassumption. lia.
Qed.

Lemma scanned_bounds (re : RegExp) (content : str) (lastIndex : nat)
    (ms : list MatchResult) (m : MatchResult) :
  scanned re content lastIndex ms -> In m ms ->
  lastIndex <= index m /\ index m < span_end m <= length content.
Proof.
  revert lastIndex. induction ms as [|m0 ms IH]; intros li H Hin; [destruct Hin|].
  destruct H as (H1 & H2 & _ & H4). destruct Hin as [->|Hin]; [lia|].
  specialize (IH _ H4 Hin). lia.
Qed.

Lemma scanned_disjoint (re : RegExp) (content : str) (lastIndex : nat)
    (ms : list MatchResult) (m m' : MatchResult) :
  scanned re content lastIndex ms -> In m ms -> In m' ms ->
  index m < index m' -> span_end m <= index m'.
Proof.
  revert lastIndex. induction ms as [|m0 ms IH]; intros li H Hin Hin' Hlt;
    [destruct Hin|].
  destruct H as (H1 & H2 & _ & H4).
  destruct Hin as [->|Hin], Hin' as [->|Hin'].
  - lia.
  - pose proof (@scanned_bounds _ _ _ _ _ H4 Hin'). lia.
  - pose proof (@scanned_bounds _ _ _ _ _ H4 Hin). lia.
  - eapply IH; eassumption.
Qed.

Lemma scanned_covers (re : RegExp) (content : str) (lastIndex : nat)
    (ms : list MatchResult) (j : nat) :
  scanned re content lastIndex ms ->
  lastIndex <= j <= length content ->
  ~ no_match_at re content j ->
  exists m, In m ms /\ index m <= j < span_end m.
Proof.
  revert lastIndex. induction ms as [|m ms IH]; intros li H Hj Hrun.
  - exfalso. apply Hrun. now apply H.
  - destruct H as (H1 & H2 & H3 & H4).
    destruct (Nat.lt_ge_cases j (index m)) as [Hlt|Hge].
    + exfalso. apply Hrun. apply H3. lia.
    + destruct (Nat.lt_ge_cases j (span_end m)) as [Hin|Hout].
      * exists m. split; [now left|lia].
      * destruct (IH _ H4) as (m' & Hm' & Hr); [lia|assumption|].
        exists m'. split; [now right|assumption].
Qed.

(** ** The shape of a tag match *)

Lemma accepts_quote (c : ascii) :
  accepts false (OneOf [dquote; squote]) c = true -> c = dquote \/ c = squote.
Proof.
  cbn [accepts existsb same_char]. rewrite orb_false_r.
  intros H. apply orb_prop in H as [H|H]; apply Ascii.eqb_eq in H; auto.
Qed.

Lemma accepts_no_quote (l : str) :
  forallb (accepts false (NoneOf [dquote; squote])) l = true ->
  ~ In dquote l /\ ~ In squote l.
Proof.
  rewrite forallb_forall. intros H. split; intros Hin; apply H in Hin;
    cbn [accepts existsb same_char] in Hin;
    rewrite ?Ascii.eqb_refl, ?orb_true_r in Hin; discriminate.
Qed.

Lemma html_run_shape (x : str) (pos e : nat) (caps : list nat) :
  run false (nodes htmlRegex) x pos [] = Some (e, caps) ->
  exists attrs q1 p q2 tail rest,
    x = txt "<img" ++ attrs ++ txt "src=" ++ [q1] ++ p ++ [q2] ++ tail
        ++ txt ">" ++ rest /\
    attrs <> [] /\ ~ In ">"%char attrs /\
    (q1 = dquote \/ q1 = squote) /\ (q2 = dquote \/ q2 = squote) /\
    p <> [] /\ ~ In dquote p /\ ~ In squote p /\
    ~ In ">"%char tail /\
    e = pos + 11 + length attrs + length p + length tail /\
    caps = [ pos + 9 + length attrs; pos + 9 + length attrs + length p ].
Proof.
  unfold htmlRegex, nodes. intros H.
  apply run_One in H as (c1 & x1 & -> & A1 & H). apply accepts_Chr in A1 as ->.
  apply run_One in H as (c2 & x2 & -> & A2 & H). apply accepts_Chr in A2 as ->.
  apply run_One in H as (c3 & x3 & -> & A3 & H). apply accepts_Chr in A3 as ->.
  apply run_One in H as (c4 & x4 & -> & A4 & H). apply accepts_Chr in A4 as ->.
  apply run_Plus in H as (a0 & attrs & x5 & -> & Aattrs & H).
  apply run_One in H as (c6 & x6 & -> & A6 & H). apply accepts_Chr in A6 as ->.
  apply run_One in H as (c7 & x7 & -> & A7 & H). apply accepts_Chr in A7 as ->.
  apply run_One in H as (c8 & x8 & -> & A8 & H). apply accepts_Chr in A8 as ->.
  apply run_One in H as (c9 & x9 & -> & A9 & H). apply accepts_Chr in A9 as ->.
  apply run_One in H as (q1 & x10 & -> & Aq1 & H). apply accepts_quote in Aq1.
  change (run false (Open :: ?k) ?x ?p ?c) with (run false k x p (c ++ [p])) in H.
  apply run_Plus in H as (p0 & p' & x11 & -> & Ap & H).
  change (run false (Close :: ?k) ?x ?p ?c) with (run false k x p (c ++ [p])) in H.
  apply run_One in H as (q2 & x12 & -> & Aq2 & H). apply accepts_quote in Aq2.
  apply run_Star in H as (tail & x13 & -> & Atail & H).
  apply run_One in H as (c14 & x14 & -> & A14 & H). apply accepts_Chr in A14 as ->.
  simpl in H. injection H as <- <-.
  apply accepts_no_quote in Ap as (Hdq & Hsq).
  exists (a0 :: attrs), q1, (p0 :: p'), q2, tail, x14.
  repeat apply conj; try assumption; try discriminate.
  - simpl. repeat (rewrite <- app_assoc; simpl). reflexivity.
  - exact (accepts_NoneOf1 _ _ Aattrs).
  - now apply accepts_NoneOf1.
  - simpl. lia.
  - simpl. repeat f_equal; lia.
Qed.

Lemma html_match_shape (content : str) (m : MatchResult) :
  is_match htmlRegex content m ->
  exists attrs q1 p q2 tail rest,
    skipn (index m) content
      = (txt "<img" ++ attrs ++ txt "src=" ++ [q1] ++ p ++ [q2] ++ tail
         ++ txt ">") ++ rest /\
    attrs <> [] /\ ~ In ">"%char attrs /\
    (q1 = dquote \/ q1 = squote) /\ (q2 = dquote \/ q2 = squote) /\
    p <> [] /\ ~ In dquote p /\ ~ In squote p /\
    ~ In ">"%char tail /\
    groups m = [ txt "<img" ++ attrs ++ txt "src=" ++ [q1] ++ p ++ [q2] ++ tail
                 ++ txt ">"; p ].
Proof.
  intros (e & caps & R & Hb & Hg).
  apply html_run_shape in R
    as (attrs & q1 & p & q2 & tail & rest & Hx & Hne & Ha & Hq1 & Hq2 & Hp
        & Hdq & Hsq & Ht & -> & ->).
  exists attrs, q1, p, q2, tail, rest.
  assert (Hx' : skipn (index m) content
                = (txt "<img" ++ attrs ++ txt "src=" ++ [q1] ++ p ++ [q2] ++ tail
                   ++ txt ">") ++ rest).
  { rewrite Hx. simpl. repeat (rewrite <- app_assoc; simpl). reflexivity. }
  repeat apply conj; try assumption.
  rewrite Hg. unfold group_texts. f_equal; [|f_equal].
  - replace (index m + 11 + length attrs + length p + length tail)
      with (index m + length (@nil ascii)
            + length (txt "<img" ++ attrs ++ txt "src=" ++ [q1] ++ p ++ [q2]
                      ++ tail ++ txt ">"))
      by (rewrite !length_app; simpl; lia).
    replace (index m) with (index m + length (@nil ascii)) at 1 by (simpl; lia).
    apply substring_middle with (post := rest). exact Hx'.
  - replace (index m + 9 + length attrs)
      with (index m + length (txt "<img" ++ attrs ++ txt "src=" ++ [q1]))
      by (rewrite !length_app; simpl; lia).
    apply substring_middle with (post := [q2] ++ tail ++ txt ">" ++ rest).
    rewrite Hx. simpl. repeat (rewrite <- app_assoc; simpl). reflexivity.
Qed.

(** ** Further properties of the extraction *)

Lemma md_body_kept content filePath m r :
  In r (md_body content filePath m []) ->
  startsWith (group m 2) (txt "http://") = false /\
  startsWith (group m 2) (txt "https://") = false /\
  includes IMAGE_EXTENSIONS (toLowerCase (extname (group m 2))) = true.
Proof.
  unfold md_body.
  destruct (startsWith (group m 2) (txt "http://")); [intros []|].
  destruct (startsWith (group m 2) (txt "https://")); [intros []|].
  cbn [orb]. destruct (includes _ _); [auto|intros []].
Qed.

Lemma html_body_kept content filePath m r :
  In r (html_body content filePath m []) ->
  startsWith (group m 1) (txt "http") = false.
Proof.
  unfold html_body. destruct (startsWith _ _); [intros []|reflexivity].
Qed.

Lemma md_occurrence_match content filePath i r :
  In (i, r) (md_occurrences content filePath) ->
  exists m, In m (matches mdRegex content) /\ i = index m /\
            In r (md_body content filePath m []).
Proof. apply In_tagged. Qed.

Lemma html_occurrence_match content filePath i r :
  In (i, r) (html_occurrences content filePath) ->
  exists m, In m (matches htmlRegex content) /\ i = index m /\
            In r (html_body content filePath m []).
Proof. apply In_tagged. Qed.

Lemma matches_are_matches (re : RegExp) (content : str) (m : MatchResult) :
  global re = true -> starts_with_a_character re ->
  In m (matches re content) -> is_match re content m.
Proof.
  intros G P Hin. destruct (@matches_spec re content G P) as (_ & _ & Hall).
  rewrite Forall_forall in Hall. now apply Hall.
Qed.

Lemma match_is_part (re : RegExp) (content : str) (m : MatchResult) :
  global re = true -> starts_with_a_character re ->
  In m (matches re content) ->
  0 < length (group m 0) /\
  index m + length (group m 0) <= length content /\
  group m 0 = substring content (index m) (index m + length (group m 0)).
Proof.
  intros G P Hm.
  pose proof (@matches_scanned re content G P) as S.
  pose proof (@scanned_bounds _ _ _ _ _ S Hm) as B. unfold span_end in B.
  pose proof (is_match_text (@matches_are_matches re content m G P Hm)) as T.
  repeat apply conj; try lia.
  unfold substring.
  replace (index m + length (group m 0) - index m) with (length (group m 0))
    by lia.
  now rewrite T.
Qed.

(** X1: the matched text of every reference is a non-empty part of the
    document, which lies at the offset of the reference; and two references
    of the same form never share text: the matched text of the one that
    starts first ends at or before the start of the other. *)
Theorem references_of_a_form_do_not_overlap (content filePath : str) :
  (forall (i : nat) (r : ImageReference),
      In (i, r) (occurrences content filePath) ->
      0 < length (Ref.fullMatch r) /\
      i + length (Ref.fullMatch r) <= length content /\
      Ref.fullMatch r = substring content i (i + length (Ref.fullMatch r))) /\
  (forall (i i' : nat) (r r' : ImageReference),
      (In (i, r) (md_occurrences content filePath) /\
       In (i', r') (md_occurrences content filePath)) \/
      (In (i, r) (html_occurrences content filePath) /\
       In (i', r') (html_occurrences content filePath)) ->
      i < i' ->
      i + length (Ref.fullMatch r) <= i').
Proof.
  split.
  - intros i r H. unfold occurrences in H. apply in_app_iff in H as [H|H].
    + apply md_occurrence_match in H as (m & Hm & -> & Hr).
      apply md_body_fields in Hr. subst r. cbn [Ref.fullMatch].
      exact (@match_is_part mdRegex content m eq_refl mdRegex_progress Hm).
    + apply html_occurrence_match in H as (m & Hm & -> & Hr).
      apply html_body_fields in Hr. subst r. cbn [Ref.fullMatch].
      exact (@match_is_part htmlRegex content m eq_refl htmlRegex_progress Hm).
  - intros i i' r r' [(H & H')|(H & H')] Hlt.
    + apply md_occurrence_match in H as (m & Hm & -> & Hr).
      apply md_occurrence_match in H' as (m' & Hm' & -> & Hr').
      apply md_body_fields in Hr, Hr'. subst r r'. cbn [Ref.fullMatch].
      pose proof (@matches_scanned mdRegex content eq_refl mdRegex_progress) as S.
      pose proof (@scanned_disjoint _ _ _ _ _ _ S Hm Hm' Hlt) as D.
      unfold span_end in *. lia.
    + apply html_occurrence_match in H as (m & Hm & -> & Hr).
      apply html_occurrence_match in H' as (m' & Hm' & -> & Hr').
      apply html_body_fields in Hr, Hr'. subst r r'. cbn [Ref.fullMatch].
      pose proof (@matches_scanned htmlRegex content eq_refl htmlRegex_progress) as S.
      pose proof (@scanned_disjoint _ _ _ _ _ _ S Hm Hm' Hlt) as D.
      unfold span_end in *. lia.
Qed.

Lemma references_of_a_form_do_not_overlap_witness :
  let content := txt "![a](a.png) ![b](b.png)" in
  (0 < length (txt "![b](b.png)") /\
   12 + length (txt "![b](b.png)") <= length content /\
   txt "![b](b.png)" = substring content 12 (12 + length (txt "![b](b.png)"))) /\
  0 + length (txt "![a](a.png)") <= 12.
Proof.
  intros content.
  pose (a := {| Ref.alt := txt "a"; Ref.path := txt "a.png";
                Ref.fullMatch := txt "![a](a.png)";
                Ref.sourceFile := txt "doc.md"; Ref.lineNumber := 1 |}).
  pose (b := {| Ref.alt := txt "b"; Ref.path := txt "b.png";
                Ref.fullMatch := txt "![b](b.png)";
                Ref.sourceFile := txt "doc.md"; Ref.lineNumber := 1 |}).
  split.
  - apply (proj1 (references_of_a_form_do_not_overlap content (txt "doc.md"))
             12 b).
    vm_compute. right. left. reflexivity.
  - apply (proj2 (references_of_a_form_do_not_overlap content (txt "doc.md"))
             0 12 a b).
    + left. vm_compute. split; [left; reflexivity|right; left; reflexivity].
    + lia.
Defined.

Lemma startsWith_app (x a b : str) :
  startsWith x a = false -> startsWith x (a ++ b) = false.
Proof.
  revert x. induction a as [|c a IH]; intros x H; [destruct x; discriminate|].
  destruct x as [|d x]; [reflexivity|]. cbn [app startsWith] in *.
  destruct (Ascii.eqb d c); [|reflexivity]. cbn [andb] in *. now apply IH.
Qed.

Lemma count_newlines_firstn (n : nat) (x : str) :
  count_newlines (firstn n x) <= count_newlines x.
Proof.
  unfold count_newlines. revert n. induction x as [|c x IH]; intros [|n]; simpl;
    try lia.
  specialize (IH n). destruct (ascii_dec c newline); lia.
Qed.

Lemma count_newlines_firstn_mono (n n' : nat) (x : str) :
  n <= n' -> count_newlines (firstn n x) <= count_newlines (firstn n' x).
Proof.
  intros H. replace (firstn n x) with (firstn n (firstn n' x)).
  - apply count_newlines_firstn.
  - rewrite firstn_firstn. now rewrite Nat.min_l.
Qed.

(** X2: in the result of an extraction every reference has a non-empty path
    that begins with neither "http://" nor "https://", names the document it
    was called with, and has a line number between 1 and the number of lines
    of the text. *)
Theorem extracted_reference_fields (content filePath : str)
    (refs : list ImageReference) (r : ImageReference) :
  extractImageReferences content filePath = Some refs ->
  In r refs ->
  Ref.path r <> [] /\
  startsWith (Ref.path r) (txt "http://") = false /\
  startsWith (Ref.path r) (txt "https://") = false /\
  Ref.sourceFile r = filePath /\
  1 <= Ref.lineNumber r <= line_count content.
Proof.
  rewrite extractImageReferences_occurrences. intros [= <-] Hin.
  apply in_map_iff in Hin as ((i & r') & Hr & Hin). simpl in Hr. subst r'.
  assert (Hline : forall m, 1 <= line_of content m <= line_count content).
  { intros m. rewrite line_of_newlines. unfold line_count.
    rewrite split_length. fold (count_newlines content).
    pose proof (count_newlines_firstn (index m) content). lia. }
  unfold occurrences in Hin. apply in_app_iff in Hin as [Hin|Hin].
  - apply md_occurrence_match in Hin as (m & Hm & -> & Hr).
    destruct (md_body_kept _ _ _ _ Hr) as (H1 & H2 & _).
    apply md_body_fields in Hr. subst r. cbn [Ref.path Ref.sourceFile Ref.lineNumber].
    apply (@matches_are_matches mdRegex content m eq_refl mdRegex_progress) in Hm.
    destruct (md_match_shape Hm) as (a & p & rest & _ & _ & _ & Hne & Hg).
    unfold group in *. rewrite Hg in *. cbn [nth] in *. auto.
  - apply html_occurrence_match in Hin as (m & Hm & -> & Hr).
    pose proof (html_body_kept _ _ _ _ Hr) as H1.
    apply html_body_fields in Hr. subst r. cbn [Ref.path Ref.sourceFile Ref.lineNumber].
    apply (@matches_are_matches htmlRegex content m eq_refl htmlRegex_progress) in Hm.
    destruct (html_match_shape Hm)
      as (attrs & q1 & p & q2 & tail & rest & _ & _ & _ & _ & _ & Hne & _ & _ & _ & Hg).
    unfold group in *. rewrite Hg in *. cbn [nth] in *.
    repeat apply conj; auto.
    + apply (@startsWith_app p (txt "http") (txt "://")). exact H1.
    + apply (@startsWith_app p (txt "http") (txt "s://")). exact H1.
    + apply Hline.
    + apply Hline.
Qed.

Lemma extracted_reference_fields_witness :
  1 <= 2 <= line_count (txt "intro" ++ [newline] ++ txt "<img src='a.png'>").
Proof.
  apply (@extracted_reference_fields
           (txt "intro" ++ [newline] ++ txt "<img src='a.png'>") (txt "doc.md")
           [ {| Ref.alt := []; Ref.path := txt "a.png";
                Ref.fullMatch := txt "<img src='a.png'>";
                Ref.sourceFile := txt "doc.md"; Ref.lineNumber := 2 |} ]
           {| Ref.alt := []; Ref.path := txt "a.png";
              Ref.fullMatch := txt "<img src='a.png'>";
              Ref.sourceFile := txt "doc.md"; Ref.lineNumber := 2 |}).
  - vm_compute. reflexivity.
  - left. reflexivity.
Defined.

(** X3: a reference of the markdown form can be rebuilt from its fields: its
    matched text is [![alt](path)], the alt text has no closing bracket, the
    path has no closing parenthesis, and the lower-cased extension of the
    path is one of the recognized ones. *)
Theorem markdown_reference_rebuilds (content filePath : str) (i : nat)
    (r : ImageReference) :
  In (i, r) (md_occurrences content filePath) ->
  Ref.fullMatch r = txt "![" ++ Ref.alt r ++ txt "](" ++ Ref.path r ++ txt ")" /\
  ~ In "]"%char (Ref.alt r) /\
  ~ In ")"%char (Ref.path r) /\
  includes IMAGE_EXTENSIONS (toLowerCase (extname (Ref.path r))) = true.
Proof.
  intros H. apply md_occurrence_match in H as (m & Hm & -> & Hr).
  destruct (md_body_kept _ _ _ _ Hr) as (_ & _ & Hext).
  apply md_body_fields in Hr. subst r.
  cbn [Ref.path Ref.alt Ref.fullMatch].
  apply (@matches_are_matches mdRegex content m eq_refl mdRegex_progress) in Hm.
  destruct (md_match_shape Hm) as (a & p & rest & _ & Ha & Hp & _ & Hg).
  unfold group in *. rewrite Hg in *. cbn [nth] in *. auto.
Qed.

Lemma markdown_reference_rebuilds_witness :
  includes IMAGE_EXTENSIONS (toLowerCase (extname (txt "img/Logo.SVG"))) = true.
Proof.
  apply (@markdown_reference_rebuilds (txt "see ![Logo](img/Logo.SVG)")
           (txt "doc.md") 4
           {| Ref.alt := txt "Logo"; Ref.path := txt "img/Logo.SVG";
              Ref.fullMatch := txt "![Logo](img/Logo.SVG)";
              Ref.sourceFile := txt "doc.md"; Ref.lineNumber := 1 |}).
  vm_compute. left. reflexivity.
Defined.

(** X4: a reference of the tag form has an empty alt text, and its matched
    text is [<img], at least one character other than [>], [src=], a quote,
    the path, a quote, characters other than [>], and [>]; the path is not
    empty, holds no quote and does not begin with "http". *)
Theorem tag_reference_shape (content filePath : str) (i : nat)
    (r : ImageReference) :
  In (i, r) (html_occurrences content filePath) ->
  Ref.alt r = [] /\
  (exists attrs q1 q2 tail,
      Ref.fullMatch r = txt "<img" ++ attrs ++ txt "src=" ++ [q1] ++ Ref.path r
                        ++ [q2] ++ tail ++ txt ">" /\
      attrs <> [] /\ ~ In ">"%char attrs /\ ~ In ">"%char tail /\
      (q1 = dquote \/ q1 = squote) /\ (q2 = dquote \/ q2 = squote)) /\
  Ref.path r <> [] /\
  ~ In dquote (Ref.path r) /\ ~ In squote (Ref.path r) /\
  startsWith (Ref.path r) (txt "http") = false.
Proof.
  intros H. apply html_occurrence_match in H as (m & Hm & -> & Hr).
  pose proof (html_body_kept _ _ _ _ Hr) as Hhttp.
  apply html_body_fields in Hr. subst r.
  cbn [Ref.path Ref.alt Ref.fullMatch].
  apply (@matches_are_matches htmlRegex content m eq_refl htmlRegex_progress) in Hm.
  destruct (html_match_shape Hm)
    as (attrs & q1 & p & q2 & tail & rest & _ & Hne & Ha & Hq1 & Hq2 & Hp
        & Hdq & Hsq & Ht & Hg).
  unfold group in *. rewrite Hg in *. cbn [nth] in *.
  repeat apply conj; try assumption; [reflexivity|].
  exists attrs, q1, q2, tail. repeat apply conj; auto.
Qed.

Lemma tag_reference_shape_witness :
  startsWith (txt "a.png") (txt "http") = false.
Proof.
  apply (@tag_reference_shape (txt "<img alt='x' src='a.png' width=3>")
           (txt "doc.md") 0
           {| Ref.alt := []; Ref.path := txt "a.png";
              Ref.fullMatch := txt "<img alt='x' src='a.png' width=3>";
              Ref.sourceFile := txt "doc.md"; Ref.lineNumber := 1 |}).
  vm_compute. left. reflexivity.
Defined.

Lemma sorted_map_le (A : Type) (f g : A -> nat) (l : list A) :
  (forall x y, f x < f y -> g x <= g y) ->
  StronglySorted lt (map f l) -> StronglySorted le (map g l).
Proof.
  intros Hm. induction l as [|x l IH]; simpl; intros Hs; [constructor|].
  apply StronglySorted_inv in Hs as (Hs & Hall).
  constructor; [now apply IH|].
  rewrite Forall_map in *. eapply Forall_impl; [|exact Hall].
  intros y Hy. now apply Hm.
Qed.

Lemma occurrence_line content filePath i r :
  In (i, r) (occurrences content filePath) ->
  Ref.lineNumber r = 1 + count_newlines (firstn i content).
Proof.
  intros H. apply occurrence_inv in H as (m & -> & _ & -> & _).
  apply line_of_newlines.
Qed.

(** X5: the line numbers of the result never go down within a form: the
    result is the references of the markdown form, with line numbers in
    ascending order, followed by those of the tag form, again with line
    numbers in ascending order. *)
Theorem line_numbers_ascend_per_form (content filePath : str) :
  exists md html,
    extractImageReferences content filePath = Some (md ++ html) /\
    md = map snd (md_occurrences content filePath) /\
    html = map snd (html_occurrences content filePath) /\
    StronglySorted le (map Ref.lineNumber md) /\
    StronglySorted le (map Ref.lineNumber html).
Proof.
  exists (map snd (md_occurrences content filePath)),
         (map snd (html_occurrences content filePath)).
  split.
  { rewrite extractImageReferences_occurrences. unfold occurrences.
    now rewrite map_app. }
  assert (Hmono : forall o o' : nat * ImageReference,
             In o (occurrences content filePath) ->
             In o' (occurrences content filePath) ->
             fst o < fst o' ->
             Ref.lineNumber (snd o) <= Ref.lineNumber (snd o')).
  { intros [i r] [i' r'] H H' Hlt. simpl in *.
    rewrite (occurrence_line _ _ _ _ H), (occurrence_line _ _ _ _ H').
    pose proof (@count_newlines_firstn_mono i i' content). lia. }
  assert (Hsorted : forall occ : list (nat * ImageReference),
             (forall o, In o occ -> In o (occurrences content filePath)) ->
             StronglySorted lt (map fst occ) ->
             StronglySorted le (map Ref.lineNumber (map snd occ))).
  { intros occ. rewrite map_map.
    induction occ as [|o occ IH]; simpl; intros Hsub Hs; [constructor|].
    apply StronglySorted_inv in Hs as (Hs & Hall).
    constructor; [apply IH; auto|].
    rewrite Forall_map in *. rewrite Forall_forall in *.
    intros o' Ho'. apply Hmono; auto. }
  repeat apply conj; try reflexivity.
  - apply Hsorted; [|apply md_occurrences_sorted].
    intros o Ho. unfold occurrences. apply in_or_app. now left.
  - apply Hsorted; [|apply html_occurrences_sorted].
    intros o Ho. unfold occurrences. apply in_or_app. now right.
Qed.

(** ** The extension of a path *)










(** ** The filter of the markdown form *)







(** A construct is met by the scan at its offset unless that offset lies
    inside a match that starts before it. *)
Lemma md_construct_met_or_inside (pre altText p rest : str) :
  ~ In "]"%char altText -> ~ In ")"%char p -> p <> [] ->
  let construct := txt "![" ++ altText ++ txt "](" ++ p ++ txt ")" in
  let content := pre ++ construct ++ rest in
  inside_a_match content (length pre) \/
  In {| index := length pre; groups := [construct; altText; p] |}
     (matches mdRegex content).
Proof.
  intros Ha Hp Hne construct content.
  pose proof (@matches_scanned mdRegex content eq_refl mdRegex_progress) as S.
  assert (Hskip : skipn (length pre) content = construct ++ rest).
  { unfold content. now rewrite skipn_app, skipn_all, Nat.sub_diag. }
  destruct (@scanned_covers mdRegex content 0 (matches mdRegex content)
              (length pre) S) as (m & Hm & Hr).
  - unfold content. rewrite length_app. lia.
  - unfold no_match_at. rewrite Hskip. unfold construct.
    pose proof (@md_run_construct altText p rest (length pre) Ha Hp Hne) as R.
    intros E. cbn [ignoreCase mdRegex] in E.
    repeat (rewrite <- app_assoc in E; cbn [app txt list_ascii_of_string] in E).
    cbn [app txt list_ascii_of_string] in R.
    rewrite E in R. discriminate.
  - destruct (Nat.eq_dec (index m) (length pre)) as [Hi|Hi].
    + right.
      pose proof (@matches_are_matches mdRegex content m eq_refl
                    mdRegex_progress Hm) as M.
      destruct (md_match_shape M) as (a' & p' & rest' & Hx & Ha' & Hp' & _ & Hg).
      rewrite Hi, Hskip in Hx. unfold construct in Hx.
      repeat (rewrite <- app_assoc in Hx; cbn [app txt list_ascii_of_string] in Hx).
      injection Hx as Hx.
      apply split_unique in Hx as (<- & Hx); try assumption.
      injection Hx as Hx.
      apply split_unique in Hx as (<- & _); try assumption.
      destruct m as [i g]. cbn [index groups] in *. subst i g. exact Hm.
    + left. exists m. split; [assumption|lia].
Qed.

(** No match starts at an offset that lies inside an earlier match. *)
Lemma md_inside_not_met (content : str) (i : nat) (m : MatchResult) :
  inside_a_match content i -> In m (matches mdRegex content) -> index m <> i.
Proof.
  intros (m0 & Hm0 & Hr) Hm Hi.
  pose proof (@matches_scanned mdRegex content eq_refl mdRegex_progress) as S.
  assert (Hlt : index m0 < index m) by lia.
  pose proof (@scanned_disjoint _ _ _ _ _ _ S Hm0 Hm Hlt). lia.
Qed.








(** X6: no markdown image is lost between matches: a text [![alt](path)]
    that starts at offset [length pre] is met by the scan at that offset,
    with these alt text and path, exactly when its first character does not
    lie inside a markdown match that starts before it. *)
Theorem markdown_construct_is_covered (pre altText p rest : str) :
  ~ In "]"%char altText -> ~ In ")"%char p -> p <> [] ->
  let construct := txt "![" ++ altText ++ txt "](" ++ p ++ txt ")" in
  let content := pre ++ construct ++ rest in
  In {| index := length pre; groups := [construct; altText; p] |}
     (matches mdRegex content)
  <-> ~ exists m, In m (matches mdRegex content) /\
                  index m < length pre < span_end m.
Proof.
  intros Ha Hp Hne construct content. split.
  - intros Hm Hin.
    exact (@md_inside_not_met content (length pre) _ Hin Hm eq_refl).
  - intros Hout.
    destruct (@md_construct_met_or_inside pre altText p rest Ha Hp Hne)
      as [Hin|Hm]; [contradiction|exact Hm].
Qed.

Lemma markdown_construct_is_covered_witness :
  In {| index := 12;
        groups := [ txt "![Logo](logo.png)"; txt "Logo"; txt "logo.png" ] |}
     (matches mdRegex (txt "![a](a.pdf) ![Logo](logo.png)")) /\
  ~ In {| index := 14;
          groups := [ txt "![Logo](logo.png)"; txt "Logo"; txt "logo.png" ] |}
       (matches mdRegex (txt "![x](http://y ![Logo](logo.png)")).
Proof.
  split.
  - apply (proj2 (@markdown_construct_is_covered (txt "![a](a.pdf) ") (txt "Logo")
                    (txt "logo.png") []
                    ltac:(vm_compute; intuition discriminate)
                    ltac:(vm_compute; intuition discriminate)
                    ltac:(discriminate))).
    intros (m & Hm & Hlt). vm_compute in Hm.
    destruct Hm as [<-|[<-|[]]]; cbn in Hlt; lia.
  - intros Hm.
    apply (proj1 (@markdown_construct_is_covered (txt "![x](http://y ") (txt "Logo")
                    (txt "logo.png") []
                    ltac:(vm_compute; intuition discriminate)
                    ltac:(vm_compute; intuition discriminate)
                    ltac:(discriminate)) Hm).
    eexists. split; [vm_compute; left; reflexivity|cbn; lia].
Defined.

(** ** Further properties of the classification *)

Lemma contains_embedded (word x pre post : str) :
  contains_ignoring_case word x ->
  contains_ignoring_case word (pre ++ x ++ post).
Proof.
  intros (a & mid & b & -> & L). exists (pre ++ a), mid, (b ++ post).
  split; [|assumption]. now rewrite <- !app_assoc.
Qed.

Lemma contains_subword (w1 word w2 x : str) :
  contains_ignoring_case (w1 ++ word ++ w2) x ->
  contains_ignoring_case word x.
Proof.
  intros (a & mid & b & -> & L). unfold toLowerCase in L.
  apply map_eq_app in L as (m1 & m' & -> & L1 & L).
  apply map_eq_app in L as (m & m2 & -> & L & L2).
  exists (a ++ m1), m, (m2 ++ b). split; [|assumption].
  now rewrite <- !app_assoc.
Qed.

Lemma flag_iff_word (imagePath : str) :
  isCamundaSpecific imagePath = true <->
  exists pattern, In pattern CAMUNDA_PATTERNS /\
                  contains_ignoring_case (word_of pattern) imagePath.
Proof.
  unfold isCamundaSpecific. rewrite existsb_exists.
  pose proof camunda_patterns_plain as P. rewrite forallb_forall in P.
  split; intros (pattern & Hin & H); exists pattern; (split; [assumption|]);
    apply test_plain_literal; auto.
Qed.

Lemma category_matches_iff (imagePath : str) (e : Category * CategoryConfig) :
  In e CATEGORIES ->
  category_matches imagePath (snd e) <->
  exists pattern, In pattern (patterns (snd e)) /\
                  contains_ignoring_case (word_of pattern) imagePath.
Proof.
  intros He. pose proof category_patterns_plain as P.
  rewrite Forall_forall in P. specialize (P e He). rewrite forallb_forall in P.
  unfold category_matches.
  split; intros (pattern & Hin & H); exists pattern; (split; [assumption|]);
    apply test_plain_literal; auto.
Qed.

Lemma category_matches_embedded (imagePath pre post : str)
    (e : Category * CategoryConfig) :
  In e CATEGORIES ->
  category_matches imagePath (snd e) ->
  category_matches (pre ++ imagePath ++ post) (snd e).
Proof.
  intros He H. apply (@category_matches_iff _ e He).
  apply (@category_matches_iff _ e He) in H as (pattern & Hin & H).
  exists pattern. split; [assumption|]. now apply contains_embedded.
Qed.

(** X7: the flag looks at the whole path: a flagged path stays flagged when
    text is put before or after it, as a flagged file name under any
    directory; the cockpit category, the first of the list, is kept in the
    same way. *)
Theorem flag_survives_embedding (imagePath pre post : str) :
  (isCamundaSpecific imagePath = true ->
   isCamundaSpecific (pre ++ imagePath ++ post) = true) /\
  (categorizeScreenshot imagePath = cockpit ->
   categorizeScreenshot (pre ++ imagePath ++ post) = cockpit).
Proof.
  split.
  - intros H. apply flag_iff_word in H as (pattern & Hin & H).
    apply flag_iff_word. exists pattern. split; [assumption|].
    now apply contains_embedded.
  - unfold categorizeScreenshot, CATEGORIES. cbn [first_category].
    set (config := {| patterns := [ lit_i "cockpit"; lit_i "dashboard";
                                    lit_i "process-"; lit_i "decision-";
                                    lit_i "batch"; lit_i "migration";
                                    lit_i "heatmap" ];
                      description := "Cockpit webapp screenshots" |}).
    destruct (some_pattern_matches (toLowerCase imagePath) (patterns config))
      eqn:M.
    + intros _. apply some_pattern_matches_iff in M.
      apply (@category_matches_embedded imagePath pre post (cockpit, config))
        in M; [|left; reflexivity].
      apply some_pattern_matches_iff in M. cbn [snd] in M. now rewrite M.
    + intros H. exfalso.
      repeat match type of H with
             | context [if ?b then _ else _] => destruct b
             end; discriminate.
Qed.

Lemma flag_survives_embedding_witness :
  isCamundaSpecific (txt "docs/img/" ++ txt "tasklist" ++ txt "/start.png") = true.
Proof.
  apply (proj1 (flag_survives_embedding (txt "tasklist") (txt "docs/img/")
                  (txt "/start.png"))).
  reflexivity.
Defined.

Lemma lowerChar_idempotent (c : ascii) : lowerChar (lowerChar c) = lowerChar c.
Proof.
  assert (H : forallb (fun c => Ascii.eqb (lowerChar (lowerChar c)) (lowerChar c))
                      all_chars = true) by (vm_compute; reflexivity).
  rewrite forallb_forall in H. apply Ascii.eqb_eq, H, In_all_chars.
Qed.

(** X8: the classification ignores letter case: a path and its lower-case
    form get the same category and the same flag, and so do any two paths
    with the same lower-case form. *)
Theorem classification_ignores_case (p q : str) :
  categorizeScreenshot (toLowerCase p) = categorizeScreenshot p /\
  isCamundaSpecific (toLowerCase p) = isCamundaSpecific p /\
  (toLowerCase p = toLowerCase q ->
   categorizeScreenshot p = categorizeScreenshot q /\
   isCamundaSpecific p = isCamundaSpecific q).
Proof.
  assert (I : toLowerCase (toLowerCase p) = toLowerCase p).
  { unfold toLowerCase. rewrite map_map. apply map_ext. apply lowerChar_idempotent. }
  unfold categorizeScreenshot, isCamundaSpecific. rewrite I.
  split; [reflexivity|]. split; [reflexivity|].
  intros ->. split; reflexivity.
Qed.

Lemma classification_ignores_case_witness :
  categorizeScreenshot (txt "IMG/Cockpit.PNG") = categorizeScreenshot (txt "img/cockpit.png").
Proof.
  apply (proj2 (proj2 (classification_ignores_case (txt "IMG/Cockpit.PNG")
                         (txt "img/cockpit.png")))).
  reflexivity.
Defined.

Lemma test_subword (re re' : RegExp) (w1 w2 imagePath : str) :
  is_plain_literal re = true -> is_plain_literal re' = true ->
  word_of re' = w1 ++ word_of re ++ w2 ->
  test re' (toLowerCase imagePath) = true ->
  test re (toLowerCase imagePath) = true.
Proof.
  intros P P' Hw H.
  apply (@test_plain_literal _ imagePath P).
  apply (@test_plain_literal _ imagePath P') in H. rewrite Hw in H.
  now apply contains_subword in H.
Qed.

(** X9: the three web applications take every flagged path but those flagged
    for camunda, webapp or cleanup: a flagged path whose category is welcome,
    modeler or other contains one of these three words. *)
Theorem flagged_outside_the_webapps (imagePath : str) :
  isCamundaSpecific imagePath = true ->
  categorizeScreenshot imagePath = welcome \/
  categorizeScreenshot imagePath = modeler \/
  categorizeScreenshot imagePath = other ->
  contains_ignoring_case (txt "camunda") imagePath \/
  contains_ignoring_case (txt "webapp") imagePath \/
  contains_ignoring_case (txt "cleanup") imagePath.
Proof.
  intros F C. unfold isCamundaSpecific in F.
  apply existsb_exists in F as (pattern & Hin & T).
  assert (Sub : forall w w1 w2,
             pattern = lit_i w ->
             word_of (lit_i w) = w1 ++ word_of (lit_i w2) ++ [] \/
             word_of (lit_i w) = [] ++ word_of (lit_i w2) ++ w1 ->
             is_plain_literal (lit_i w) = true ->
             is_plain_literal (lit_i w2) = true ->
             test (lit_i w2) (toLowerCase imagePath) = true).
  { intros w w1 w2 -> [Hw|Hw] P P2;
      eapply (@test_subword (lit_i w2) (lit_i w)); eassumption. }
  assert (K : forall w, pattern = lit_i w -> is_plain_literal (lit_i w) = true ->
                        contains_ignoring_case (word_of (lit_i w)) imagePath).
  { intros w -> P. now apply (@test_plain_literal _ imagePath P). }
  unfold categorizeScreenshot, CATEGORIES in C.
  cbn [first_category patterns some_pattern_matches] in C.
  unfold CAMUNDA_PATTERNS in Hin. cbn [In] in Hin.
  destruct Hin as [E|[E|[E|[E|[E|[E|[E|[E|[E|[E|[E|[E|[E|[E|[]]]]]]]]]]]]]]];
    subst pattern.
  - left. exact (K _ eq_refl eq_refl).
  - repeat match type of C with
           | context [if test ?r ?x then _ else _] =>
               destruct (test r x) eqn:?; try congruence
           end; intuition discriminate.
  - repeat match type of C with
           | context [if test ?r ?x then _ else _] =>
               destruct (test r x) eqn:?; try congruence
           end; intuition discriminate.
  - repeat match type of C with
           | context [if test ?r ?x then _ else _] =>
               destruct (test r x) eqn:?; try congruence
           end; intuition discriminate.
  - right. left. exact (K _ eq_refl eq_refl).
  - repeat match type of C with
           | context [if test ?r ?x then _ else _] =>
               destruct (test r x) eqn:?; try congruence
           end; intuition discriminate.
  - pose proof (Sub "process-definition"%string (txt "definition") "process-"%string
                  eq_refl (or_intror eq_refl) eq_refl eq_refl) as T'.
    repeat match type of C with
           | context [if test ?r ?x then _ else _] =>
               destruct (test r x) eqn:?; try congruence
           end; intuition discriminate.
  - pose proof (Sub "process-instance"%string (txt "instance") "process-"%string
                  eq_refl (or_intror eq_refl) eq_refl eq_refl) as T'.
    repeat match type of C with
           | context [if test ?r ?x then _ else _] =>
               destruct (test r x) eqn:?; try congruence
           end; intuition discriminate.
  - repeat match type of C with
           | context [if test ?r ?x then _ else _] =>
               destruct (test r x) eqn:?; try congruence
           end; intuition discriminate.
  - repeat match type of C with
           | context [if test ?r ?x then _ else _] =>
               destruct (test r x) eqn:?; try congruence
           end; intuition discriminate.
  - pose proof (Sub "filter-"%string (txt "-") "filter"%string
                  eq_refl (or_intror eq_refl) eq_refl eq_refl) as T'.
    repeat match type of C with
           | context [if test ?r ?x then _ else _] =>
               destruct (test r x) eqn:?; try congruence
           end; intuition discriminate.
  - repeat match type of C with
           | context [if test ?r ?x then _ else _] =>
               destruct (test r x) eqn:?; try congruence
           end; intuition discriminate.
  - repeat match type of C with
           | context [if test ?r ?x then _ else _] =>
               destruct (test r x) eqn:?; try congruence
           end; intuition discriminate.
  - right. right. exact (K _ eq_refl eq_refl).
Qed.

Lemma flagged_outside_the_webapps_witness :
  contains_ignoring_case (txt "camunda") (txt "welcome-Camunda.png") \/
  contains_ignoring_case (txt "webapp") (txt "welcome-Camunda.png") \/
  contains_ignoring_case (txt "cleanup") (txt "welcome-Camunda.png").
Proof.
  apply flagged_outside_the_webapps.
  - reflexivity.
  - left. reflexivity.
Defined.

(** ** Further properties of the report *)

Section FirstOccurrences.
Variables (A : Type) (eqb : A -> A -> bool).
Hypothesis eqb_eq : forall x y, eqb x y = true <-> x = y.

Lemma eqb_sym (x y : A) : eqb x y = eqb y x.
Proof.
  destruct (eqb x y) eqn:E, (eqb y x) eqn:E'; try reflexivity.
  - apply eqb_eq in E. subst. rewrite (proj2 (eqb_eq y y) eq_refl) in E'.
    discriminate.
  - apply eqb_eq in E'. subst. rewrite (proj2 (eqb_eq x x) eq_refl) in E.
    discriminate.
Qed.

Lemma filter_known (x : A) (acc l : list A) :
  existsb (eqb x) acc = true ->
  filter (fun y => negb (existsb (eqb y) acc))
         (filter (fun y => negb (eqb x y)) l)
  = filter (fun y => negb (existsb (eqb y) acc)) l.
Proof.
  intros E. induction l as [|y l IHl]; [reflexivity|].
  cbn [filter]. destruct (eqb x y) eqn:Exy; cbn [negb].
  - apply eqb_eq in Exy. subst y. rewrite E. cbn [negb]. exact IHl.
  - cbn [filter]. now rewrite IHl.
Qed.

Lemma filter_new (x : A) (acc l : list A) :
  filter (fun y => negb (existsb (eqb y) (acc ++ [x]))) l
  = filter (fun y => negb (existsb (eqb y) acc))
           (filter (fun y => negb (eqb x y)) l).
Proof.
  induction l as [|y l IHl]; [reflexivity|].
  cbn [filter]. rewrite existsb_app. cbn [existsb]. rewrite orb_false_r.
  rewrite (eqb_sym y x).
  destruct (eqb x y) eqn:Exy; cbn [negb].
  - rewrite orb_true_r. cbn [negb]. exact IHl.
  - rewrite orb_false_r. cbn [filter].
    destruct (existsb (eqb y) acc); cbn [negb]; now rewrite IHl.
Qed.

Lemma fold_add_once (xs acc : list A) :
  fold_left (add_once eqb) xs acc
  = acc ++ filter (fun y => negb (existsb (eqb y) acc)) (first_occurrences eqb xs).
Proof.
  revert acc. induction xs as [|x xs IH]; intros acc;
    cbn [fold_left first_occurrences filter].
  - now rewrite app_nil_r.
  - rewrite IH. unfold add_once. destruct (existsb (eqb x) acc) eqn:E; cbn [negb].
    + f_equal. symmetry. now apply filter_known.
    + rewrite <- app_assoc. cbn [app]. f_equal. f_equal. apply filter_new.
Qed.

Lemma fold_add_once_nil (xs : list A) :
  fold_left (add_once eqb) xs [] = first_occurrences eqb xs.
Proof.
  rewrite fold_add_once. cbn [app existsb negb].
  induction (first_occurrences eqb xs) as [|y l IHl]; [reflexivity|].
  cbn [filter]. now rewrite IHl.
Qed.
End FirstOccurrences.

Lemma Set_from_first_occurrences (xs : list str) :
  Set_from xs = first_occurrences str_eqb xs.
Proof. exact (@fold_add_once_nil str str_eqb str_eqb_eq xs). Qed.

Section CategoryLookup.
Variable A : Type.
Implicit Types (o : CategoryMap A) (k : Category).

Lemma lookup_assign_other o k key (v : A) :
  key <> k -> lookup k (assign key v o) = lookup k o.
Proof.
  intros Hne. induction o as [|[k' x] o IH]; cbn [assign lookup].
  - destruct (Category_eqb key k) eqn:E; [|reflexivity].
    apply Category_eqb_eq in E. contradiction.
  - destruct (Category_eqb k' key) eqn:E; cbn [lookup].
    + apply Category_eqb_eq in E. subst k'.
      destruct (Category_eqb key k) eqn:E'; [|reflexivity].
      apply Category_eqb_eq in E'. contradiction.
    + destruct (Category_eqb k' k); [reflexivity|assumption].
Qed.

Lemma lookup_keys o k :
  existsb (Category_eqb k) (keys o) = is_some (lookup k o).
Proof.
  induction o as [|[k' x] o IH]; cbn [keys map existsb lookup fst]; [reflexivity|].
  rewrite (@eqb_sym Category Category_eqb Category_eqb_eq k k').
  destruct (Category_eqb k' k); [reflexivity|]. exact IH.
Qed.

Lemma lookup_map (B : Type) (f : A -> B) o k :
  lookup k (map (fun e => (fst e, f (snd e))) o) = option_map f (lookup k o).
Proof.
  induction o as [|[k' x] o IH]; cbn [map lookup fst snd]; [reflexivity|].
  destruct (Category_eqb k' k); [reflexivity|assumption].
Qed.
End CategoryLookup.

Lemma group_step_lookup (o : CategoryMap (list ClassifiedImage))
    (image : ClassifiedImage) (k : Category) :
  lookup k (group_by_category_step o image)
  = if in_category k image
    then Some (match lookup k o with Some l => l | None => [] end ++ [image])
    else lookup k o.
Proof.
  unfold group_by_category_step, in_category.
  destruct (Category_eqb (Image.category image) k) eqn:E.
  - apply Category_eqb_eq in E. subst k.
    destruct (lookup (Image.category image) o) as [l|] eqn:L.
    + rewrite L. apply lookup_assign.
    + rewrite lookup_assign. apply lookup_assign.
  - assert (Hne : Image.category image <> k).
    { intros Heq. rewrite Heq, (proj2 (Category_eqb_eq k k) eq_refl) in E.
      discriminate. }
    destruct (lookup (Image.category image) o) as [l|] eqn:L.
    + rewrite L. now apply lookup_assign_other.
    + rewrite lookup_assign. now rewrite !lookup_assign_other.
Qed.

Lemma group_fold_lookup (images : list ClassifiedImage)
    (o : CategoryMap (list ClassifiedImage)) (k : Category) :
  lookup k (fold_left group_by_category_step images o)
  = match filter (in_category k) images with
    | [] => lookup k o
    | l => Some (match lookup k o with Some l0 => l0 | None => [] end ++ l)
    end.
Proof.
  revert o. induction images as [|i images IH]; intros o; [reflexivity|].
  cbn [fold_left filter]. rewrite IH, group_step_lookup.
  destruct (in_category k i).
  - destruct (filter (in_category k) images) as [|j l].
    + reflexivity.
    + now rewrite <- app_assoc.
  - reflexivity.
Qed.

Lemma group_step_keys_add (o : CategoryMap (list ClassifiedImage)) image :
  keys (group_by_category_step o image)
  = add_once Category_eqb (keys o) (Image.category image).
Proof.
  unfold group_by_category_step, add_once. rewrite lookup_keys.
  destruct (lookup (Image.category image) o) as [l|] eqn:L; cbn [is_some].
  - rewrite L. apply (@keys_assign_present _ _ _ l). exact L.
  - rewrite lookup_assign.
    rewrite (@keys_assign_present _ _ _ []) by apply lookup_assign.
    rewrite (@assign_absent _ _ _ _ L). unfold keys. now rewrite map_app.
Qed.

Lemma group_fold_keys_order (images : list ClassifiedImage)
    (o : CategoryMap (list ClassifiedImage)) :
  keys (fold_left group_by_category_step images o)
  = fold_left (add_once Category_eqb) (map Image.category images) (keys o).
Proof.
  revert o. induction images as [|i images IH]; intros o; [reflexivity|].
  cbn [fold_left map]. now rewrite IH, group_step_keys_add.
Qed.

(** X10: the report has one group for each category that occurs, holding
    exactly the references of that category in the order of the input, and
    one row of counts for it; a category without references has neither a
    group nor a row. *)
Theorem groups_hold_each_category (allImages : list ClassifiedImage)
    (k : Category) :
  exists report,
    generateReport allImages = Some report /\
    lookup k (Report.byCategory report)
    = match filter (in_category k) allImages with
      | [] => None
      | l => Some l
      end /\
    lookup k (Summary.byCategory (Report.summary report))
    = match filter (in_category k) allImages with
      | [] => None
      | l => Some {| Stats.total := length l;
                     Stats.needsReplacement := flagged_count l |}
      end.
Proof.
  destruct (generateReport_total allImages) as (report & H).
  exists report. split; [assumption|].
  destruct (generateReport_inv _ H) as (Hs & Hg & _ & _).
  rewrite Hs. cbn [Summary.byCategory]. rewrite lookup_map, Hg, group_fold_lookup.
  cbn [lookup app].
  destruct (filter (in_category k) allImages); split; reflexivity.
Qed.

(** X11: the groups and the rows of counts come in the order in which the
    categories first occur in the input, and the entries of the replacement
    plan in the order in which their paths first occur among the flagged
    references. *)
Theorem report_keeps_first_occurrence_order (allImages : list ClassifiedImage) :
  exists report,
    generateReport allImages = Some report /\
    keys (Report.byCategory report)
    = first_occurrences Category_eqb (map Image.category allImages) /\
    keys (Summary.byCategory (Report.summary report))
    = first_occurrences Category_eqb (map Image.category allImages) /\
    map Entry.imagePath (Report.replacementPlan report)
    = first_occurrences str_eqb
        (map Image.path (filter Image.needsReplacement allImages)).
Proof.
  destruct (generateReport_total allImages) as (report & H).
  exists report. split; [assumption|].
  destruct (generateReport_inv _ H) as (Hs & Hg & Hp & _).
  assert (K : keys (Report.byCategory report)
              = first_occurrences Category_eqb (map Image.category allImages)).
  { rewrite Hg, group_fold_keys_order.
    exact (@fold_add_once_nil Category Category_eqb Category_eqb_eq _). }
  repeat apply conj.
  - exact K.
  - rewrite Hs. cbn [Summary.byCategory]. rewrite <- K.
    unfold keys. rewrite map_map. reflexivity.
  - rewrite Hp. apply Set_from_first_occurrences.
Qed.

(** X12: building the plan never fails; every entry of the plan has at least
    one location, and the plan is empty exactly when no reference is
    flagged. *)
Theorem plan_entries_are_never_empty (allImages : list ClassifiedImage) :
  exists report,
    generateReport allImages = Some report /\
    Forall (fun e => Entry.referencedIn e <> []) (Report.replacementPlan report) /\
    (Report.replacementPlan report = [] <->
     forall i, In i allImages -> Image.needsReplacement i = false).
Proof.
  destruct (generateReport_total allImages) as (report & H).
  exists report. split; [assumption|].
  destruct (generateReport_inv _ H) as (_ & _ & Hp & Hd).
  split.
  - eapply Forall_impl; [|exact Hd].
    intros e (Hr & first & Hf & _). rewrite Hr. intros E.
    apply map_eq_nil in E. rewrite E in Hf. discriminate Hf.
  - split.
    + intros E i Hi. destruct (Image.needsReplacement i) eqn:F; [|reflexivity].
      assert (Hin : In (Image.path i) (Set_from (map Image.path
                      (filter Image.needsReplacement allImages)))).
      { apply Set_from_In, in_map, filter_In. auto. }
      rewrite <- Hp, E in Hin. destruct Hin.
    + intros Hno.
      assert (E : filter Image.needsReplacement allImages = [])
        by now apply filter_none.
      rewrite E in Hp. cbn in Hp.
      destruct (Report.replacementPlan report); [reflexivity|discriminate].
Qed.

Lemma filter_filter_implied (A : Type) (f g : A -> bool) (l : list A) :
  (forall x, In x l -> g x = true -> f x = true) ->
  filter g (filter f l) = filter g l.
Proof.
  induction l as [|x l IH]; intros H; [reflexivity|]. cbn [filter].
  destruct (g x) eqn:G.
  - rewrite (H x (or_introl eq_refl) G). cbn [filter]. rewrite G.
    f_equal. apply IH. intros y Hy. apply H. now right.
  - destruct (f x); cbn [filter]; rewrite ?G; apply IH;
      intros y Hy; apply H; now right.
Qed.

(** X13: when every image has the category and the flag of its path, as
    after [analyzeFile], an entry of the plan has the category of its path,
    its path is a flagged one, and its locations are those of all references
    to that path, flagged or not. *)
Theorem plan_of_classified_images (allImages : list ClassifiedImage)
    (report : Report) :
  (forall i, In i allImages -> classified i) ->
  generateReport allImages = Some report ->
  Forall (fun e =>
            Entry.category e = categorizeScreenshot (Entry.imagePath e) /\
            isCamundaSpecific (Entry.imagePath e) = true /\
            Entry.referencedIn e
            = map location_of
                (filter (fun i => str_eqb (Image.path i) (Entry.imagePath e))
                        allImages))
         (Report.replacementPlan report).
Proof.
  intros Hc H. destruct (generateReport_inv _ H) as (_ & _ & _ & Hd).
  eapply Forall_impl; [|exact Hd].
  intros e (Hr & first & Hf & Hcat).
  assert (Hin : In first (filter (fun i => str_eqb (Image.path i) (Entry.imagePath e))
                                 (filter Image.needsReplacement allImages))).
  { destruct (filter _ (filter _ _)); [discriminate Hf|].
    injection Hf as ->. now left. }
  apply filter_In in Hin as (Hin & Hpath). apply str_eqb_eq in Hpath.
  apply filter_In in Hin as (Hin & Hflag).
  destruct (Hc first Hin) as (C1 & C2).
  assert (F : isCamundaSpecific (Entry.imagePath e) = true)
    by (rewrite <- Hpath, <- C2; exact Hflag).
  repeat apply conj.
  - now rewrite Hcat, C1, Hpath.
  - exact F.
  - rewrite Hr. f_equal. apply filter_filter_implied.
    intros x Hx Hp. apply str_eqb_eq in Hp.
    destruct (Hc x Hx) as (_ & ->). now rewrite Hp.
Qed.

Lemma plan_of_classified_images_witness :
  exists report,
    generateReport two_documents_images = Some report /\
    Forall (fun e => isCamundaSpecific (Entry.imagePath e) = true)
           (Report.replacementPlan report).
Proof.
  destruct (generateReport_total two_documents_images) as (report & H).
  exists report. split; [exact H|].
  eapply Forall_impl;
    [|apply (@plan_of_classified_images two_documents_images report); [|exact H]].
  - intros e (_ & F & _). exact F.
  - intros i [<-|[<-|[]]]; split; vm_compute; reflexivity.
Defined.

Lemma analyzeFile_read (fs : FileSystem) (filePath content : str) :
  fs filePath = Content content ->
  analyzeFile fs filePath = Fulfilled (images_of (filePath, content)).
Proof.
  intros H. unfold analyzeFile, images_of.
  now rewrite H, extractImageReferences_occurrences.
Qed.

Lemma analyzeFile_document (fs : FileSystem) (file : str) :
  readable fs file ->
  analyzeFile fs file = Fulfilled (images_of (document fs file)).
Proof.
  intros (content & H). rewrite (@analyzeFile_read fs file content H).
  unfold document. now rewrite H.
Qed.

Lemma analyzeFile_settles (fs : FileSystem) (file : str) :
  (exists content, fs file = Content content /\
                   analyzeFile fs file = Fulfilled (images_of (file, content))) \/
  (exists err, fs file = ReadError err /\ analyzeFile fs file = Rejected err).
Proof.
  destruct (fs file) as [content|err] eqn:E.
  - left. exists content. split; [reflexivity|now apply analyzeFile_read].
  - right. exists err. split; [reflexivity|]. unfold analyzeFile. now rewrite E.
Qed.

Lemma analyzeFiles_images (fs : FileSystem) (files : list str)
    (allImages : list ClassifiedImage) :
  Forall (readable fs) files ->
  analyzeFiles fs files allImages
  = Fulfilled (allImages
               ++ flat_map (fun file => images_of (document fs file)) files).
Proof.
  intros H. revert allImages.
  induction H as [|file files Hf _ IH]; intros allImages;
    cbn [analyzeFiles flat_map].
  - now rewrite app_nil_r.
  - rewrite (@analyzeFile_document fs file Hf), IH, <- app_assoc. reflexivity.
Qed.

Lemma analyzeFiles_app (fs : FileSystem) (files files' : list str)
    (allImages : list ClassifiedImage) :
  analyzeFiles fs (files ++ files') allImages
  = match analyzeFiles fs files allImages with
    | Fulfilled images => analyzeFiles fs files' images
    | Rejected err => Rejected err
    | Pending => Pending
    end.
Proof.
  revert allImages. induction files as [|file files IH]; intros allImages;
    cbn [app analyzeFiles]; [reflexivity|].
  destruct (analyzeFile fs file); [apply IH|reflexivity|reflexivity].
Qed.

Lemma analyzeFiles_fulfilled (fs : FileSystem) (files : list str)
    (allImages images : list ClassifiedImage) :
  analyzeFiles fs files allImages = Fulfilled images ->
  Forall (readable fs) files.
Proof.
  revert allImages. induction files as [|file files IH]; intros allImages H;
    [constructor|].
  cbn [analyzeFiles] in H.
  destruct (analyzeFile_settles fs file) as [(content & E & A)|(err & E & A)];
    rewrite A in H; [|discriminate H].
  constructor; [now exists content|now apply IH in H].
Qed.

Lemma images_of_document (fs : FileSystem) (file : str) (i : ClassifiedImage) :
  In i (images_of (document fs file)) ->
  Image.sourceFile i = file /\ classified i.
Proof.
  unfold images_of, document. cbn [fst snd]. intros Hi.
  apply in_map_iff in Hi as (r & <- & Hr).
  apply in_map_iff in Hr as ((j & r') & <- & Hr). cbn [snd].
  split; [|split; reflexivity].
  cbn [classify Image.sourceFile].
  unfold occurrences in Hr. apply in_app_iff in Hr as [Hr|Hr].
  - apply md_occurrence_match in Hr as (m & _ & _ & Hr).
    apply md_body_fields in Hr. now subst r'.
  - apply html_occurrence_match in Hr as (m & _ & _ & Hr).
    apply html_body_fields in Hr. now subst r'.
Qed.

(** X14: the analysis of a list of documents reads them in order and always
    settles.  When every document can be read, it gives the images of the
    documents one after the other, after the images it started with; when
    the read of a document is rejected, and the documents before it can be
    read, the analysis is rejected with that error and gives no images.  A
    list analysed in two parts gives what the whole list gives.  Every
    image of a fulfilled analysis names one of the documents and has the
    category and the flag of its path. *)
Theorem analysis_goes_document_by_document (fs : FileSystem)
    (files files' : list str) (allImages : list ClassifiedImage) :
  (Forall (readable fs) files ->
   analyzeFiles fs files allImages
   = Fulfilled (allImages
                ++ flat_map (fun file => images_of (document fs file)) files)) /\
  (forall before file after err,
      files = before ++ file :: after ->
      Forall (readable fs) before -> fs file = ReadError err ->
      analyzeFiles fs files allImages = Rejected err) /\
  analyzeFiles fs files allImages <> Pending /\
  analyzeFiles fs (files ++ files') allImages
  = match analyzeFiles fs files allImages with
    | Fulfilled images => analyzeFiles fs files' images
    | Rejected err => Rejected err
    | Pending => Pending
    end /\
  (forall images,
      analyzeFiles fs files [] = Fulfilled images ->
      Forall (readable fs) files /\
      Forall (fun i => In (Image.sourceFile i) files /\ classified i) images).
Proof.
  repeat apply conj.
  - apply analyzeFiles_images.
  - intros before file after err -> Hb Hf.
    rewrite analyzeFiles_app, (@analyzeFiles_images fs before allImages Hb).
    cbn [analyzeFiles]. unfold analyzeFile. now rewrite Hf.
  - revert allImages. induction files as [|file files IH]; intros allImages;
      cbn [analyzeFiles]; [discriminate|].
    destruct (analyzeFile_settles fs file) as [(content & _ & A)|(err & _ & A)];
      rewrite A; [apply IH|discriminate].
  - apply analyzeFiles_app.
  - intros images H.
    pose proof (@analyzeFiles_fulfilled fs files [] images H) as R.
    split; [exact R|].
    rewrite (@analyzeFiles_images fs files [] R) in H. injection H as <-.
    cbn [app].
    apply Forall_forall. intros i Hi.
    apply in_flat_map in Hi as (file & Hf & Hi).
    apply images_of_document in Hi as (-> & Hc). now split.
Qed.

Lemma analysis_goes_document_by_document_witness :
  analyzeFiles (files_of two_documents) [txt "a.md"; txt "b.md"] []
  = Fulfilled (images_of (txt "a.md", txt "![Users](images/admin-users.png)")
               ++ images_of (txt "b.md", txt "<img src='images/admin-users.png'>")
               ++ []) /\
  analyzeFiles (files_of two_documents) [txt "a.md"; txt "c.md"; txt "b.md"] []
  = Rejected (txt "ENOENT").
Proof.
  split.
  - apply (proj1 (analysis_goes_document_by_document
                    (files_of two_documents) [txt "a.md"; txt "b.md"] [] [])).
    repeat constructor; eexists; vm_compute; reflexivity.
  - apply (proj1 (proj2 (analysis_goes_document_by_document
                           (files_of two_documents)
                           [txt "a.md"; txt "c.md"; txt "b.md"] [] []))
             [txt "a.md"] (txt "c.md") [txt "b.md"] (txt "ENOENT")).
    + reflexivity.
    + repeat constructor; eexists; vm_compute; reflexivity.
    + vm_compute. reflexivity.
Defined.

(** ** Properties of the markdown text *)

Lemma fold_left_append (A : Type) (step : str -> A -> str) (l : list A) (md : str) :
  (forall md x, step md x = md ++ step [] x) ->
  fold_left step l md = md ++ flat_map (step []) l.
Proof.
  intros H. revert md. induction l as [|x l IH]; intros md; cbn [fold_left flat_map].
  - now rewrite app_nil_r.
  - rewrite IH, (H md x), <- app_assoc. reflexivity.
Qed.

Lemma category_row_append (md : str) (entry : Category * Stats.t) :
  category_row md entry = md ++ category_row [] entry.
Proof. destruct entry. reflexivity. Qed.

Lemma location_line_append (env : Env) (md : str) (ref : Location.t) :
  location_line env md ref = md ++ location_line env [] ref.
Proof. reflexivity. Qed.

Lemma item_block_append (env : Env) (md : str) (item : ReplacementPlanEntry) :
  item_block env md item = md ++ item_block env [] item.
Proof.
  unfold item_block.
  rewrite !(fold_left_append (location_line env) _ _ (location_line_append env)).
  destruct (3 <? length (Entry.referencedIn item));
    cbn [app]; repeat rewrite <- app_assoc; reflexivity.
Qed.

Lemma category_section_append (env : Env) (report : Report) (md : str)
    (entry : Category * CategoryConfig) :
  category_section env report md entry
  = md ++ category_section env report [] entry.
Proof.
  unfold category_section.
  destruct (length (section_items report (fst entry)) =? 0);
    [now rewrite app_nil_r|].
  rewrite !(fold_left_append (item_block env) _ _ (item_block_append env)).
  destruct (20 <? length (section_items report (fst entry)));
    cbn [app]; repeat rewrite <- app_assoc; reflexivity.
Qed.

Lemma generateMarkdownReport_parts (env : Env) (report : Report) :
  generateMarkdownReport env report
  = report_header env (Report.summary report)
    ++ flat_map (category_row []) (Summary.byCategory (Report.summary report))
    ++ PLAN_HEADING
    ++ flat_map (category_section env report []) CATEGORIES
    ++ REPORT_FOOTER.
Proof.
  unfold generateMarkdownReport.
  rewrite (fold_left_append category_row _ _ category_row_append).
  rewrite (fold_left_append (category_section env report) _ _
             (category_section_append env report)).
  now rewrite <- !app_assoc.
Qed.

Lemma flat_map_split (A : Type) (f : A -> str) (l : list A) (x : A) :
  In x l -> exists a b, flat_map f l = a ++ f x ++ b.
Proof.
  intros H. apply in_split in H as (l1 & l2 & ->).
  exists (flat_map f l1), (flat_map f l2).
  now rewrite flat_map_app.
Qed.

Lemma capitalize_category (c : Category) :
  capitalize (category_name c) = section_title c.
Proof. destruct c; reflexivity. Qed.

Lemma In_CATEGORIES (c : Category) : exists config, In (c, config) CATEGORIES.
Proof.
  destruct c; eexists; unfold CATEGORIES;
    [left|right; left|do 2 right; left|do 3 right; left|do 4 right; left
    |do 5 right; left]; reflexivity.
Qed.

(** The section of a category that has entries: its heading, an empty line,
    the blocks of the first 20 entries, and the line for the others. *)
Lemma category_section_filled (env : Env) (report : Report)
    (entry : Category * CategoryConfig) :
  section_items report (fst entry) <> [] ->
  category_section env report [] entry
  = section_heading (fst entry) (length (section_items report (fst entry)))
    ++ blank
    ++ flat_map (item_block env []) (firstn 20 (section_items report (fst entry)))
    ++ (if 20 <? length (section_items report (fst entry))
        then more_entries_line (fst entry)
               (length (section_items report (fst entry)) - 20) ++ blank
        else []).
Proof.
  intros Hne. unfold category_section.
  destruct (section_items report (fst entry)) as [|item items] eqn:E;
    [congruence|].
  cbn [length Nat.eqb].
  rewrite (fold_left_append (item_block env) _ _ (item_block_append env)).
  rewrite capitalize_category.
  unfold section_heading, more_entries_line, ln.
  destruct (20 <? S (length items)); rewrite ?app_nil_r;
    repeat rewrite <- app_assoc; reflexivity.
Qed.

(** The block of an entry: its three lines, the lines of its first three
    locations, the line for the other locations, and an empty line. *)
Lemma item_block_lines (env : Env) (item : ReplacementPlanEntry) :
  item_block env [] item
  = entry_lines env item ++ location_lines env item
    ++ (if 3 <? length (Entry.referencedIn item)
        then more_locations_line (length (Entry.referencedIn item) - 3)
        else [])
    ++ blank.
Proof.
  unfold item_block.
  rewrite (fold_left_append (location_line env) _ _ (location_line_append env)).
  change (flat_map (location_line env [])
            (firstn 3 (Entry.referencedIn item)))
    with (location_lines env item).
  unfold entry_lines, more_locations_line, ln, blank.
  destruct (3 <? length (Entry.referencedIn item));
    repeat rewrite <- app_assoc; reflexivity.
Qed.

Lemma item_block_same_shown (env : Env) (md : str)
    (e e' : ReplacementPlanEntry) :
  same_shown e e' -> item_block env md e = item_block env md e'.
Proof.
  intros (Hp & Hl & Hf). unfold item_block. now rewrite Hp, Hl, Hf.
Qed.

Lemma item_blocks_same_shown (env : Env) (l l' : list ReplacementPlanEntry) :
  Forall2 same_shown l l' ->
  forall md, fold_left (item_block env) l md = fold_left (item_block env) l' md.
Proof.
  induction 1 as [|e e' l l' He _ IH]; intros md; cbn [fold_left];
    [reflexivity|].
  now rewrite (item_block_same_shown env md He), IH.
Qed.

Lemma fold_left_same (A : Type) (f g : str -> A -> str) (l : list A) :
  (forall md x, f md x = g md x) ->
  forall md, fold_left f l md = fold_left g l md.
Proof.
  intros H. induction l as [|x l IH]; intros md; cbn [fold_left];
    [reflexivity|].
  now rewrite H, IH.
Qed.

(** X15: the sections of the markdown text share out the plan.  Each of the
    first 20 entries of a category is presented in the text, after the
    heading of the section of that category, by its three lines (name, path,
    number of locations) and the lines of its first three locations,
    followed by a line that counts the other locations when there are more
    than three; a category with more than 20 entries has a line that counts
    the others; and the text depends on the entries after the 20th of a
    category, and on the locations after the third of an entry, only through
    their number. *)
Theorem sections_share_out_the_plan (env : Env) (report : Report) :
  (forall c e,
      In e (firstn 20 (section_items report c)) ->
      exists before between after,
        generateMarkdownReport env report
        = before ++ section_heading c (length (section_items report c))
          ++ between ++ entry_lines env e ++ location_lines env e
          ++ (if 3 <? length (Entry.referencedIn e)
              then more_locations_line (length (Entry.referencedIn e) - 3)
              else [])
          ++ blank ++ after) /\
  (forall c,
      20 < length (section_items report c) ->
      occurs_in (more_entries_line c (length (section_items report c) - 20))
                (generateMarkdownReport env report)) /\
  (forall report',
      Report.summary report = Report.summary report' ->
      (forall c,
          length (section_items report c) = length (section_items report' c) /\
          Forall2 same_shown (firstn 20 (section_items report c))
                             (firstn 20 (section_items report' c))) ->
      generateMarkdownReport env report = generateMarkdownReport env report').
Proof.
  split; [|split].
  - intros c e He.
    assert (Hne : section_items report c <> []).
    { intros E. rewrite E in He. destruct He. }
    destruct (In_CATEGORIES c) as (config & Hc).
    destruct (flat_map_split (category_section env report []) _ _ Hc)
      as (A & B & HS).
    destruct (flat_map_split (item_block env []) _ _ He) as (A' & B' & HI).
    rewrite generateMarkdownReport_parts, HS.
    rewrite (@category_section_filled env report (c, config) Hne).
    cbn [fst]. rewrite HI, item_block_lines.
    exists (report_header env (Report.summary report)
            ++ flat_map (category_row []) (Summary.byCategory (Report.summary report))
            ++ PLAN_HEADING ++ A),
           (blank ++ A'),
           (B'
            ++ (if 20 <? length (section_items report c)
                then more_entries_line c (length (section_items report c) - 20)
                     ++ blank
                else [])
            ++ B ++ REPORT_FOOTER).
    repeat rewrite <- app_assoc. reflexivity.
  - intros c Hlen.
    assert (Hne : section_items report c <> []).
    { intros E. rewrite E in Hlen. cbn in Hlen. lia. }
    destruct (In_CATEGORIES c) as (config & Hc).
    destruct (flat_map_split (category_section env report []) _ _ Hc)
      as (A & B & HS).
    rewrite generateMarkdownReport_parts, HS.
    rewrite (@category_section_filled env report (c, config) Hne).
    cbn [fst]. rewrite (proj2 (Nat.ltb_lt _ _) Hlen).
    exists (report_header env (Report.summary report)
            ++ flat_map (category_row []) (Summary.byCategory (Report.summary report))
            ++ PLAN_HEADING ++ A
            ++ section_heading c (length (section_items report c)) ++ blank
            ++ flat_map (item_block env []) (firstn 20 (section_items report c))),
           (blank ++ B ++ REPORT_FOOTER).
    repeat rewrite <- app_assoc. reflexivity.
  - intros report' Hs Hc. unfold generateMarkdownReport. rewrite <- Hs.
    f_equal. apply fold_left_same. intros md entry.
    unfold category_section. destruct (Hc (fst entry)) as (Hl & Hf).
    rewrite <- Hl.
    destruct (length (section_items report (fst entry)) =? 0); [reflexivity|].
    now rewrite (item_blocks_same_shown env Hf).
Qed.

Lemma sections_share_out_the_plan_witness :
  let report := four_references_report (txt "d.md") in
  generateMarkdownReport example_env report
  = generateMarkdownReport example_env (four_references_report (txt "e.md")) /\
  exists before between after,
    generateMarkdownReport example_env report
    = before ++ txt "### Cockpit (1)" ++ [newline]
      ++ between
      ++ (txt "- **cockpit.png**" ++ [newline]
          ++ txt "  - Path: `cockpit.png`" ++ [newline]
          ++ txt "  - Referenced in: 4 file(s)" ++ [newline])
      ++ (txt "    - a.md:1" ++ [newline]
          ++ txt "    - b.md:1" ++ [newline]
          ++ txt "    - c.md:1" ++ [newline])
      ++ (txt "    - ... and 1 more" ++ [newline])
      ++ blank ++ after.
Proof.
  intros report. split.
  - apply (proj2 (proj2 (sections_share_out_the_plan example_env report))
             (four_references_report (txt "e.md"))).
    + reflexivity.
    + intros c. destruct c; split; try reflexivity; vm_compute;
        repeat constructor.
  - apply (proj1 (sections_share_out_the_plan example_env report) cockpit
             {| Entry.imagePath := txt "cockpit.png";
                Entry.category := cockpit;
                Entry.referencedIn :=
                  [ {| Location.file := txt "a.md"; Location.line := 1 |};
                    {| Location.file := txt "b.md"; Location.line := 1 |};
                    {| Location.file := txt "c.md"; Location.line := 1 |};
                    {| Location.file := txt "d.md"; Location.line := 1 |} ] |}).
    vm_compute. left. reflexivity.
Defined.

Lemma replace_first_after (pattern replacement : ascii) (pre post : str) :
  ~ In pattern pre ->
  replace_first pattern replacement (pre ++ pattern :: post)
  = pre ++ replacement :: post.
Proof.
  induction pre as [|c pre IH]; intros H; cbn [app replace_first].
  - now rewrite Ascii.eqb_refl.
  - destruct (Ascii.eqb c pattern) eqn:E.
    + apply Ascii.eqb_eq in E. exfalso. apply H. now left.
    + rewrite IH; [reflexivity|]. intros Hin. apply H. now right.
Qed.

(** X16: when the instant is written as a date of 10 characters, the letter
    T, a time of 8 characters and a remainder, the text begins with the title
    and the line "Generated: " with the date, a space and the time. *)
Theorem report_shows_date_and_time (env : Env) (report : Report)
    (date time rest : str) :
  toISOString env = date ++ "T"%char :: time ++ rest ->
  length date = 10 -> length time = 8 -> ~ In "T"%char date ->
  exists text,
    generateMarkdownReport env report
    = ln "# Operaton Screenshot Replacement Plan" ++ blank
      ++ txt "Generated: " ++ date ++ " "%char :: time ++ [newline] ++ text.
Proof.
  intros Hiso Hd Ht Hnot.
  assert (E : substring (replace_first "T" " " (toISOString env)) 0 19
              = date ++ " "%char :: time).
  { rewrite Hiso, replace_first_after by assumption.
    unfold substring. cbn [skipn]. rewrite Nat.sub_0_r.
    change (" "%char :: time ++ rest) with ((" "%char :: time) ++ rest).
    rewrite app_assoc, firstn_app.
    replace (19 - length (date ++ " "%char :: time)) with 0
      by (rewrite length_app; cbn [length]; lia).
    rewrite firstn_all2 by (rewrite length_app; cbn [length]; lia).
    cbn [firstn]. now rewrite app_nil_r. }
  unfold generateMarkdownReport, report_header. rewrite E.
  rewrite (fold_left_append category_row _ _ category_row_append).
  rewrite (fold_left_append (category_section env report) _ _
             (category_section_append env report)).
  eexists. repeat rewrite <- app_assoc. cbn [app].
  repeat rewrite <- app_assoc. reflexivity.
Qed.

Lemma report_shows_date_and_time_witness :
  exists report text,
    generateReport two_documents_images = Some report /\
    generateMarkdownReport example_env report
    = ln "# Operaton Screenshot Replacement Plan" ++ blank
      ++ txt "Generated: " ++ txt "2025-03-09" ++ " "%char :: txt "14:05:59"
      ++ [newline] ++ text.
Proof.
  destruct (generateReport_total two_documents_images) as (report & H).
  destruct (@report_shows_date_and_time example_env report (txt "2025-03-09")
              (txt "14:05:59") (txt ".123Z")) as (text & E).
  - reflexivity.
  - reflexivity.
  - reflexivity.
  - vm_compute. intuition discriminate.
  - exists report, text. split; [exact H|exact E].
Defined.
